(** * Frame-rate up-conversion utilities (util.cpp): a shallow embedding

    The development follows [src/util.cpp]: the median neighbour predictor
    [medianNeighbor], the block cost [calcSAD], the customised phase
    correlation [phaseCorr] and the report writer [writeToFile].

    Conventions.
    - A C++ [int] is a [Z] kept in the 32-bit two's-complement range; every
      arithmetic operation of the source is written with its wrap-around
      ([int_add], [int_sub], [int_mul]).  Signed overflow is undefined in
      C++; the wrap-around is what the usual targets compute.
    - [float] and [double] arithmetic is reached through the interface
      [FloatOps]; [ieee32] instantiates it with IEEE-754 binary32
      (from [SpecFloat]) and [exactZ] with exact integer samples.
    - A [cv::Mat] is a header naming a byte buffer of a store; copying a
      header ([padded1 = src1]) shares the buffer. *)

From Stdlib Require Import ZArith List Bool Lia String Ascii.
From Stdlib Require Import Floats.SpecFloat DecimalString.
From stdpp Require Import base option list gmap.

Local Open Scope Z_scope.

(** ** Machine integers *)

Definition INT_MIN : Z := - 2 ^ 31.
Definition INT_MAX : Z := 2 ^ 31 - 1.

(** The value an [int] holds after an operation whose exact result is [z]. *)
Definition wrap_int (z : Z) : Z := (z + 2 ^ 31) mod 2 ^ 32 - 2 ^ 31.

Definition in_int (z : Z) : Prop := INT_MIN <= z <= INT_MAX.

Definition int_add (a b : Z) : Z := wrap_int (a + b).
Definition int_sub (a b : Z) : Z := wrap_int (a - b).
Definition int_mul (a b : Z) : Z := wrap_int (a * b).

(** ** Scalars *)

(** What the source needs of [float]: the literal [0.0], [+], [-], [abs],
    [operator<], the conversion [(int)round(x)], the reinterpretation of
    four bytes of a buffer as a [float] (what [at<float>] performs), and the
    value as a [float] of eight bytes that hold a [double]. *)
Class FloatOps (F : Type) := {
  f_zero : F;
  f_add : F -> F -> F;
  f_sub : F -> F -> F;
  f_abs : F -> F;
  f_lt : F -> F -> bool;
  f_round_int : F -> Z;
  f_decode : list Byte.byte -> F;
  f_decode_double : list Byte.byte -> F;
}.

(** Little-endian value of a run of bytes. *)
Fixpoint le_bits (bs : list Byte.byte) : Z :=
  match bs with
  | [] => 0
  | b :: bs' => Z.of_N (Byte.to_N b) + 256 * le_bits bs'
  end.

(** Little-endian bytes of the low [n] bytes of [z]. *)
Fixpoint le_bytes (n : nat) (z : Z) : list Byte.byte :=
  match n with
  | O => []
  | S n' =>
      match Byte.of_N (Z.to_N (z mod 256)) with
      | Some b => b :: le_bytes n' (z / 256)
      | None => le_bytes n' (z / 256)
      end
  end.

Module IEEE.

(** IEEE-754 interchange formats: [mw] stored mantissa bits, [ew] exponent
    bits.  binary32 is [mw = 23, ew = 8]; binary64 is [mw = 52, ew = 11]. *)
Definition of_bits (mw ew : Z) (bits : Z) : spec_float :=
  let mant := bits mod 2 ^ mw in
  let expo := (bits / 2 ^ mw) mod 2 ^ ew in
  let sign := Z.odd (bits / 2 ^ (mw + ew)) in
  let bias := 2 ^ (ew - 1) - 1 in
  if expo =? 0 then
    match mant with
    | Zpos m => S754_finite sign m (1 - bias - mw)
    | _ => S754_zero sign
    end
  else if expo =? 2 ^ ew - 1 then
    if mant =? 0 then S754_infinity sign else S754_nan
  else
    match mant + 2 ^ mw with
    | Zpos m => S754_finite sign m (expo - bias - mw)
    | _ => S754_nan
    end.

Definition to_bits (mw ew : Z) (x : spec_float) : Z :=
  let bias := 2 ^ (ew - 1) - 1 in
  let sgn (s : bool) := if s then 2 ^ (mw + ew) else 0 in
  match x with
  | S754_zero s => sgn s
  | S754_infinity s => sgn s + (2 ^ ew - 1) * 2 ^ mw
  | S754_nan => (2 ^ ew - 1) * 2 ^ mw + 2 ^ (mw - 1)
  | S754_finite s m e =>
      if Zpos m <? 2 ^ mw then sgn s + Zpos m
      else sgn s + (e + bias + mw) * 2 ^ mw + (Zpos m - 2 ^ mw)
  end.

(** [round] of <cmath>: to the nearest integer, halves away from zero. *)
Definition round_half_away (x : spec_float) : option Z :=
  match x with
  | S754_zero _ => Some 0
  | S754_finite s m e =>
      let mag :=
        if 0 <=? e then Zpos m * 2 ^ e
        else (Zpos m + 2 ^ (- e - 1)) / 2 ^ (- e) in
      Some (if s then - mag else mag)
  | _ => None
  end.

(** [(int)round(x)].  A value that does not fit an [int] (or a NaN) is
    undefined in C++; the model returns [INT_MIN], the x86 conversion's
    answer. *)
Definition round_int (x : spec_float) : Z :=
  match round_half_away x with
  | Some z => if (INT_MIN <=? z) && (z <=? INT_MAX) then z else INT_MIN
  | None => INT_MIN
  end.

Definition f32 : Type := spec_float.
Definition f64 : Type := spec_float.

Definition f32_of_Z (z : Z) : f32 := binary_normalize 24 128 z 0 false.
Definition f64_of_Z (z : Z) : f64 := binary_normalize 53 1024 z 0 false.

(** A [double] narrowed to [float]. *)
Definition f64_to_f32 (x : f64) : f32 :=
  match x with
  | S754_finite s m e => binary_normalize 24 128 (if s then Zneg m else Zpos m) e s
  | _ => x
  end.

End IEEE.

#[export] Instance ieee32 : FloatOps IEEE.f32 := {
  f_zero := S754_zero false;
  f_add := SFadd 24 128;
  f_sub := SFsub 24 128;
  f_abs := SFabs;
  f_lt := SFltb;
  f_round_int := IEEE.round_int;
  f_decode := fun bs => IEEE.of_bits 23 8 (le_bits bs);
  f_decode_double := fun bs => IEEE.f64_to_f32 (IEEE.of_bits 52 11 (le_bits bs));
}.

(** Exact integer samples: the arithmetic binary32 performs on integers of
    magnitude below [2^24], without the rounding. *)
Definition exactZ : FloatOps Z := {|
  f_zero := 0;
  f_add := Z.add;
  f_sub := Z.sub;
  f_abs := Z.abs;
  f_lt := Z.ltb;
  f_round_int := wrap_int;
  f_decode := fun bs => wrap_int (le_bits bs);
  f_decode_double := fun bs => (le_bits bs + 2 ^ 63) mod 2 ^ 64 - 2 ^ 63;
|}.

(** ** Points *)

Record Point2 (F : Type) := mkPoint { px : F; py : F }.
Arguments mkPoint {F} _ _.
Arguments px {F} _.
Arguments py {F} _.

(** An integer pixel location ([cv::Point]): [ptx] is the column. *)
Record Point := mkLoc { ptx : Z; pty : Z }.

(** ** medianNeighbor (util.cpp, lines 152-203) *)

(** [vector<vector<Point2f>>]: rows of motion vectors (rows may differ in
    length). *)
Abbreviation MotionField F := (list (list (Point2 F))).

Section MedianNeighbor.
Context {F : Type} {FO : FloatOps F}.

(** [prevBlockMV[r][c]].  [operator[]] outside a vector is undefined
    behaviour: [None].  An [int] index is converted to [size_t], so a
    negative one is out of range too. *)
Definition mv_at (g : MotionField F) (r c : Z) : option (Point2 F) :=
  if 0 <=? r then
    row ← g !! Z.to_nat r;
    if 0 <=? c then row !! Z.to_nat c else None
  else None.

(** Lines 155 and 159-187: [neighborMV(3, Point2f(0, 0))], then the three
    assignments of the branch taken. *)
Definition selectNeighbors (rowpos colpos : Z) (prevBlockMV : MotionField F)
  : option (list (Point2 F)) :=
  let neighborMV := replicate 3 (mkPoint f_zero f_zero) in
  if (int_sub rowpos 1 <? 0) && (int_sub colpos 1 <? 0) then
    n0 ← mv_at prevBlockMV rowpos (int_add colpos 1);
    n1 ← mv_at prevBlockMV (int_add rowpos 1) colpos;
    n2 ← mv_at prevBlockMV (int_add rowpos 1) (int_add colpos 1);
    Some (<[2%nat := n2]> (<[1%nat := n1]> (<[0%nat := n0]> neighborMV)))
  else if int_sub colpos 1 <? 0 then
    n0 ← mv_at prevBlockMV (int_sub rowpos 1) colpos;
    n1 ← mv_at prevBlockMV (int_sub rowpos 1) (int_add colpos 1);
    n2 ← mv_at prevBlockMV rowpos (int_add colpos 1);
    Some (<[2%nat := n2]> (<[1%nat := n1]> (<[0%nat := n0]> neighborMV)))
  else if int_sub rowpos 1 <? 0 then
    n0 ← mv_at prevBlockMV rowpos (int_sub colpos 1);
    n1 ← mv_at prevBlockMV (int_add rowpos 1) (int_sub colpos 1);
    n2 ← mv_at prevBlockMV (int_add rowpos 1) colpos;
    Some (<[2%nat := n2]> (<[1%nat := n1]> (<[0%nat := n0]> neighborMV)))
  else
    n0 ← mv_at prevBlockMV (int_sub rowpos 1) (int_sub colpos 1);
    n1 ← mv_at prevBlockMV (int_sub rowpos 1) colpos;
    n2 ← mv_at prevBlockMV rowpos (int_sub colpos 1);
    Some (<[2%nat := n2]> (<[1%nat := n1]> (<[0%nat := n0]> neighborMV))).

(** [std::nth_element] leaves at position [n] the element a full sort by
    [operator<] would put there; the model sorts (insertion sort), which is
    one of the arrangements the call may produce. *)
Fixpoint insert_sorted (x : F) (l : list F) : list F :=
  match l with
  | [] => [x]
  | y :: l' => if f_lt x y then x :: y :: l' else y :: insert_sorted x l'
  end.

Definition nth_element (l : list F) : list F := foldr insert_sorted [] l.

(** Lines 156-157 and 189-201: [x_coord(3, 0.0)] and [y_coord(3, 0.0)] are
    created with three zeros, every neighbour is pushed behind them, and the
    element at [size() / 2] after [nth_element] is returned. *)
Definition medianOfPushed (neighborMV : list (Point2 F)) : option (Point2 F) :=
  let x_coord := replicate 3 f_zero ++ map px neighborMV in
  let y_coord := replicate 3 f_zero ++ map py neighborMV in
  mx ← nth_element x_coord !! (length x_coord / 2)%nat;
  my ← nth_element y_coord !! (length y_coord / 2)%nat;
  Some (mkPoint mx my).

Definition medianNeighbor (rowpos colpos : Z) (prevBlockMV : MotionField F)
  : option (Point2 F) :=
  neighborMV ← selectNeighbors rowpos colpos prevBlockMV;
  medianOfPushed neighborMV.

(** *** The documented behaviour, in the spec's words *)

(** The median of three values: the middle one of their sorted order. *)
Definition median3 (a b c : F) : option F := nth_element [a; b; c] !! 1%nat.

Definition per_coordinate_median (ns : list (Point2 F)) : option (Point2 F) :=
  match ns with
  | [a; b; c] =>
      mx ← median3 (px a) (px b) (px c);
      my ← median3 (py a) (py b) (py c);
      Some (mkPoint mx my)
  | _ => None
  end.

End MedianNeighbor.

(** Neighbour positions, named as the case table names them. *)
Definition right_of (p : Z * Z) : Z * Z := (p.1, p.2 + 1).
Definition left_of (p : Z * Z) : Z * Z := (p.1, p.2 - 1).
Definition below (p : Z * Z) : Z * Z := (p.1 + 1, p.2).
Definition above (p : Z * Z) : Z * Z := (p.1 - 1, p.2).

Inductive PositionClass := TopLeftCorner | LeftEdge | TopEdge | Interior.

Definition position_class (rowpos colpos : Z) : PositionClass :=
  if (rowpos =? 0) && (colpos =? 0) then TopLeftCorner
  else if colpos =? 0 then LeftEdge
  else if rowpos =? 0 then TopEdge
  else Interior.

(** The case table of the predictor: the three positions read, in order. *)
Definition case_table (rowpos colpos : Z) : list (Z * Z) :=
  let p := (rowpos, colpos) in
  match position_class rowpos colpos with
  | TopLeftCorner => [right_of p; below p; below (right_of p)]
  | LeftEdge => [above p; above (right_of p); right_of p]
  | TopEdge => [left_of p; below (left_of p); below p]
  | Interior => [above (left_of p); above p; left_of p]
  end.

(** A grid of [R] rows of [C] vectors each. *)
Definition rectangular {F} (g : list (list (Point2 F))) (R C : Z) : Prop :=
  Z.of_nat (length g) = R /\ Forall (fun row => Z.of_nat (length row) = C) g.

(** ** cv::Mat over a store of byte buffers *)

(** Type codes of <opencv2/core/hal/interface.h>: the depth sits in the low
    three bits, the channel count minus one above them. *)
Definition CV_32F : Z := 5.
Definition CV_64F : Z := 6.
Definition CV_MAT_DEPTH (type : Z) : Z := Z.land type 7.
Definition CV_MAT_CN (type : Z) : Z := Z.shiftr (Z.land type 4088) 3 + 1.
Definition CV_MAKETYPE (depth cn : Z) : Z := depth + Z.shiftl (cn - 1) 3.
Definition CV_32FC1 : Z := CV_MAKETYPE CV_32F 1.
Definition CV_64FC1 : Z := CV_MAKETYPE CV_64F 1.

(** Bytes of one channel of each depth (8U, 8S, 16U, 16S, 32S, 32F, 64F, 16F). *)
Definition depth_size (depth : Z) : Z :=
  match depth with
  | 0 | 1 => 1
  | 2 | 3 | 7 => 2
  | 4 | 5 => 4
  | 6 => 8
  | _ => 0
  end.

(** [Mat::elemSize()]. *)
Definition elemSize (type : Z) : Z := CV_MAT_CN type * depth_size (CV_MAT_DEPTH type).

Definition sizeof_float : Z := 4.

(** The buffers [Mat] headers point into. *)
Abbreviation store := (gmap positive (list Byte.byte)).

(** A two-dimensional [Mat] header: [m_data] names the buffer and the byte
    offset of element (0,0) in it ([None] for a header without data),
    [m_step] is the byte distance between rows.  Copying a header copies
    these fields only. *)
Record Mat := mkMat {
  m_rows : Z;
  m_cols : Z;
  m_type : Z;
  m_data : option (positive * Z);
  m_step : Z;
}.

(** [Mat()]. *)
Definition Mat_default : Mat := mkMat 0 0 0 None 0.

(** [Mat::empty()]. *)
Definition mat_empty (m : Mat) : bool :=
  match m_data m with
  | None => true
  | Some _ => m_rows m * m_cols m =? 0
  end.

(** [a.size == b.size] for two-dimensional headers. *)
Definition same_size (a b : Mat) : bool :=
  (m_rows a =? m_rows b) && (m_cols a =? m_cols b).

(** How a call ends: with a value, by a failed [CV_Assert] of the function
    itself, by an error raised inside an OpenCV routine it calls, or in
    undefined behaviour (an access outside a buffer). *)
Inductive outcome (A : Type) :=
  | Ok (a : A)
  | AssertFailed
  | LibraryError
  | Undefined.
Arguments Ok {A} _.
Arguments AssertFailed {A}.
Arguments LibraryError {A}.
Arguments Undefined {A}.

(** Computations over the store. *)
Definition Run (A : Type) : Type := store -> outcome (A * store).

Definition ret {A} (a : A) : Run A := fun st => Ok (a, st).

Definition bind {A B} (m : Run A) (k : A -> Run B) : Run B :=
  fun st =>
    match m st with
    | Ok (a, st') => k a st'
    | AssertFailed => AssertFailed
    | LibraryError => LibraryError
    | Undefined => Undefined
    end.

#[export] Instance Run_ret : MRet Run := @ret.
#[export] Instance Run_bind : MBind Run := fun A B k m => bind m k.

(** [CV_Assert(cond)]. *)
Definition CV_Assert (cond : bool) : Run unit :=
  fun st => if cond then Ok (tt, st) else AssertFailed.

Definition get_store : Run store := fun st => Ok (st, st).
Definition put_store (st' : store) : Run unit := fun _ => Ok (tt, st').
Definition raise_library_error {A} : Run A := fun _ => LibraryError.

Definition lift_opt {A} (o : option A) : Run A :=
  fun st => match o with Some a => Ok (a, st) | None => Undefined end.

(** [n] bytes of buffer [b] from byte address [addr]. *)
Definition load (st : store) (b : positive) (addr : Z) (n : Z) : option (list Byte.byte) :=
  buf ← st !! b;
  if (0 <=? addr) && (0 <=? n) && (addr + n <=? Z.of_nat (length buf))
  then Some (take (Z.to_nat n) (drop (Z.to_nat addr) buf))
  else None.

(** Overwrite the bytes of buffer [b] from byte address [addr] with [bs]. *)
Definition store_bytes (st : store) (b : positive) (addr : Z) (bs : list Byte.byte)
  : option store :=
  buf ← st !! b;
  if (0 <=? addr) && (addr + Z.of_nat (length bs) <=? Z.of_nat (length buf))
  then Some (<[b := take (Z.to_nat addr) buf ++ bs
                    ++ drop (Z.to_nat addr + length bs) buf]> st)
  else None.

(** The address [Mat::at<T>(i, j)] computes in a release build:
    [data + i * step + j * sizeof(T)]. *)
Definition at_addr (m : Mat) (sizeof_T : Z) (i j : Z) : option (positive * Z) :=
  '(b, off) ← m_data m;
  Some (b, off + i * m_step m + j * sizeof_T).

(** The bytes [at<float>(i, j)] reads. *)
Definition at_float_bytes (st : store) (m : Mat) (i j : Z) : option (list Byte.byte) :=
  '(b, a) ← at_addr m sizeof_float i j;
  load st b a sizeof_float.

(** The bytes of element [(i, j)]: [elemSize()] bytes at
    [data + i * step + j * elemSize()]. *)
Definition elem_bytes (st : store) (m : Mat) (i j : Z) : option (list Byte.byte) :=
  '(b, a) ← at_addr m (elemSize (m_type m)) i j;
  load st b a (elemSize (m_type m)).

(** [for (int i = 0; i < n; i++) body], threading the loop's variables [s]. *)
Fixpoint for_loop {S : Type} (n : nat) (i : Z) (body : Z -> S -> Run S) (s : S) : Run S :=
  match n with
  | O => ret s
  | Datatypes.S n' => s' ← body i s; for_loop n' (i + 1) body s'
  end.

Definition for_int {S : Type} (bound : Z) (body : Z -> S -> Run S) (s : S) : Run S :=
  for_loop (Z.to_nat bound) 0 body s.

(** ** calcSAD (util.cpp, lines 129-150) *)

Section CalcSAD.
Context {F : Type} {FO : FloatOps F}.

(** [BLOCK_SIZE] of constants.hpp. *)
Variable BLOCK_SIZE : Z.

(** [m.at<float>(i, j)] as an rvalue. *)
Definition at_float (m : Mat) (i j : Z) : Run F :=
  st ← get_store;
  bs ← lift_opt (at_float_bytes st m i j);
  ret (f_decode bs).

Definition calcSAD (prevBlock : Mat) (rowpos colpos : Z) (curr : Mat) (dx dy : F) : Run F :=
  CV_Assert (m_type prevBlock =? m_type curr);;
  CV_Assert ((m_type prevBlock =? CV_32FC1) || (m_type prevBlock =? CV_64FC1));;
  let SAD := f_zero in
  let y := int_mul rowpos BLOCK_SIZE in
  let x := int_mul colpos BLOCK_SIZE in
  let dx_int := f_round_int dx in
  let dy_int := f_round_int dy in
  for_int (m_rows prevBlock) (fun i SAD =>
    for_int (m_cols prevBlock) (fun j SAD =>
      if (int_add (int_add i y) dy_int <? 0)
         || (int_add (int_add i y) dy_int >=? m_rows curr)
         || (int_add (int_add j x) dx_int <? 0)
         || (int_add (int_add j x) dx_int >=? m_cols curr)
      then
        p ← at_float prevBlock i j;
        ret (f_add SAD p)
      else
        p ← at_float prevBlock i j;
        q ← at_float curr (int_add (int_add i y) dy_int) (int_add (int_add j x) dx_int);
        ret (f_add SAD (f_abs (f_sub p q)))
    ) SAD
  ) SAD.

(** *** The documented cost, in the spec's words *)

(** Element [(i, j)] of a frame as a [float]: the element's own bytes, read
    at the element's own type. *)
Definition pixel (st : store) (m : Mat) (i j : Z) : option F :=
  bs ← elem_bytes st m i j;
  if m_type m =? CV_32FC1 then Some (f_decode bs)
  else if m_type m =? CV_64FC1 then Some (f_decode_double bs)
  else None.

(** Where pixel [(i, j)] of the block lands in the target frame. *)
Definition target_row (rowpos : Z) (dy : F) (i : Z) : Z :=
  int_add (int_add i (int_mul rowpos BLOCK_SIZE)) (f_round_int dy).
Definition target_col (colpos : Z) (dx : F) (j : Z) : Z :=
  int_add (int_add j (int_mul colpos BLOCK_SIZE)) (f_round_int dx).

Definition inside_frame (curr : Mat) (r c : Z) : bool :=
  (0 <=? r) && (r <? m_rows curr) && (0 <=? c) && (c <? m_cols curr).

(** The term pixel [(i, j)] adds: the absolute difference inside the frame,
    the reference pixel itself outside. *)
Definition pixel_cost (st : store) (prevBlock : Mat) (rowpos colpos : Z) (curr : Mat)
    (dx dy : F) (ij : Z * Z) : option F :=
  let r := target_row rowpos dy ij.1 in
  let c := target_col colpos dx ij.2 in
  p ← pixel st prevBlock ij.1 ij.2;
  if inside_frame curr r c then
    q ← pixel st curr r c;
    Some (f_abs (f_sub p q))
  else Some p.

(** The pixels of a [rows] by [cols] block, row by row. *)
Definition block_pixels (rows cols : Z) : list (Z * Z) :=
  i ← seqZ 0 rows; j ← seqZ 0 cols; [(i, j)].

(** The sum of a list of terms, accumulated from [0.0] in list order. *)
Definition f_sum (terms : list F) : F := fold_left f_add terms f_zero.

Definition sad_spec (st : store) (prevBlock : Mat) (rowpos colpos : Z) (curr : Mat)
    (dx dy : F) : option F :=
  terms ← mapM (pixel_cost st prevBlock rowpos colpos curr dx dy)
             (block_pixels (m_rows prevBlock) (m_cols prevBlock));
  Some (f_sum terms).

(** The term of a block pixel, [0.0] where a pixel cannot be read. *)
Definition cost_of (st : store) (prevBlock : Mat) (rowpos colpos : Z) (curr : Mat)
    (dx dy : F) (ij : Z * Z) : F :=
  default f_zero (pixel_cost st prevBlock rowpos colpos curr dx dy ij).

(** The block pixels whose target coordinate is outside the frame. *)
Definition outside_pixels (prevBlock : Mat) (rowpos colpos : Z) (curr : Mat) (dx dy : F)
  : list (Z * Z) :=
  filter (fun ij => inside_frame curr (target_row rowpos dy ij.1)
                                      (target_col colpos dx ij.2) = false)
         (block_pixels (m_rows prevBlock) (m_cols prevBlock)).

End CalcSAD.

(** [x <= y] on floats, through [operator<]. *)
Definition f_le {F} {FO : FloatOps F} (x y : F) : Prop := f_lt y x = false.

(** Addition that preserves the order, as the rounded addition of finite
    floats and the exact addition of integers do. *)
Class MonotoneAdd (F : Type) {FO : FloatOps F} : Prop := {
  f_le_refl : forall x : F, f_le x x;
  f_add_mono : forall a b c d : F, f_le a b -> f_le c d -> f_le (f_add a c) (f_add b d);
}.

(** A header whose rows all lie inside its buffer. *)
Definition mat_valid (st : store) (m : Mat) : Prop :=
  exists b off buf,
    m_data m = Some (b, off) /\ st !! b = Some buf /\
    0 <= off /\ 0 <= m_rows m /\ 0 <= m_cols m /\
    m_cols m * elemSize (m_type m) <= m_step m /\
    (0 < m_rows m ->
     off + (m_rows m - 1) * m_step m + m_cols m * elemSize (m_type m)
       <= Z.of_nat (length buf)).

(** ** phaseCorr (util.cpp, lines 44-127) *)

(** What the source needs of [double]: the conversion from [int], the
    division, and the narrowing to [float]. *)
Class DoubleOps (F D : Type) := {
  d_of_int : Z -> D;
  d_div : D -> D -> D;
  d_to_float : D -> F;
}.

(** The contents of a matrix, rows packed one after the other. *)
Record Dense := mkDense {
  d_rows : Z;
  d_cols : Z;
  d_type : Z;
  d_bytes : list Byte.byte;
}.

(** The routines [phaseCorr] calls: OpenCV's [getOptimalDFTSize],
    [multiply], [dft], [mulSpectrums], [idft] and [minMaxLoc] (its
    maximum's location), and [magSpectrums], [divSpectrums], [fftShift] and
    [weightedCentroid], which opencv_methods.hpp declares.  Each is taken
    as a function of the contents of its input matrices, with the flags of
    the call in the source; [weightedCentroid] yields the centroid and the
    value it stores through a non-null [response]. *)
Class CvLib (F D : Type) := {
  getOptimalDFTSize : Z -> Z;
  cv_multiply : Dense -> Dense -> Dense;
  cv_dft : Dense -> Dense;
  cv_mulSpectrums : Dense -> Dense -> Dense;
  magSpectrums : Dense -> Dense;
  divSpectrums : Dense -> Dense -> Dense;
  cv_idft : Dense -> Dense;
  fftShift : Dense -> Dense;
  minMaxLoc : Dense -> Point;
  weightedCentroid : Dense -> Point -> Z * Z -> Point2 F * D;
}.

(** The contents of [m]: [m_cols * elemSize] bytes of each row. *)
Definition read_mat (m : Mat) : Run Dense :=
  match m_data m with
  | None => ret (mkDense (m_rows m) (m_cols m) (m_type m) [])
  | Some (b, off) =>
      st ← get_store;
      rows ← lift_opt
        (mapM (fun i => load st b (off + i * m_step m)
                          (m_cols m * elemSize (m_type m)))
              (seqZ 0 (m_rows m)));
      ret (mkDense (m_rows m) (m_cols m) (m_type m) (concat rows))
  end.

(** A new buffer holding [d], and the continuous header over it. *)
Definition new_mat (d : Dense) : Run Mat :=
  fun st =>
    let b := fresh (dom st) in
    Ok (mkMat (d_rows d) (d_cols d) (d_type d) (Some (b, 0))
              (d_cols d * elemSize (d_type d)),
        <[b := d_bytes d]> st).

(** Row [i] of [d]. *)
Definition dense_row (d : Dense) (i : Z) : list Byte.byte :=
  let w := Z.to_nat (d_cols d * elemSize (d_type d)) in
  take w (drop (Z.to_nat i * w) (d_bytes d)).

(** Write the rows of [d] over the rows of [m]. *)
Definition write_rows (m : Mat) (d : Dense) : Run unit :=
  match m_data m with
  | None => ret tt
  | Some (b, off) =>
      for_int (m_rows m) (fun i _ =>
        st ← get_store;
        st' ← lift_opt (store_bytes st b (off + i * m_step m) (dense_row d i));
        put_store st') tt
  end.

(** A result delivered to the output argument [dst]: [dst.create(size,
    type)] keeps the buffer of a [dst] that already has that size and type,
    and allocates a new one otherwise. *)
Definition output_to (dst : Mat) (d : Dense) : Run Mat :=
  if negb (mat_empty dst) && (m_rows dst =? d_rows d) && (m_cols dst =? d_cols d)
     && (m_type dst =? d_type d)
  then write_rows dst d;; ret dst
  else new_mat d.

Definition apply1 (f : Dense -> Dense) (src dst : Mat) : Run Mat :=
  a ← read_mat src;
  output_to dst (f a).

Definition apply2 (f : Dense -> Dense -> Dense) (src1 src2 dst : Mat) : Run Mat :=
  a ← read_mat src1;
  b ← read_mat src2;
  output_to dst (f a b).

Definition zero_bytes (n : Z) : list Byte.byte := replicate (Z.to_nat n) Byte.x00.

(** [copyMakeBorder(src, dst, 0, bottom, 0, right, BORDER_CONSTANT,
    Scalar::all(0))] into an empty [dst]: a new matrix, the rows of [src]
    followed by zeros on the right and rows of zeros below.  A negative
    border is rejected by the routine. *)
Definition pad_bottom_right (d : Dense) (bottom right : Z) : Dense :=
  let esz := elemSize (d_type d) in
  mkDense (d_rows d + bottom) (d_cols d + right) (d_type d)
    (concat (map (fun i => dense_row d i ++ zero_bytes (right * esz)) (seqZ 0 (d_rows d)))
     ++ zero_bytes (bottom * ((d_cols d + right) * esz))).

Definition copyMakeBorder (src : Mat) (bottom right : Z) : Run Mat :=
  if (bottom <? 0) || (right <? 0) then raise_library_error
  else
    a ← read_mat src;
    new_mat (pad_bottom_right a bottom right).

(** [C.at<float>(pt) = 0]: four zero bytes stored at the address
    [at<float>(pt.y, pt.x)] computes. *)
Definition set_at_float_zero (C : Mat) (pt : Point) : Run unit :=
  st ← get_store;
  '(b, a) ← lift_opt (at_addr C sizeof_float (pty pt) (ptx pt));
  st' ← lift_opt (store_bytes st b a (zero_bytes sizeof_float));
  put_store st'.

Section PhaseCorr.
Context {F D : Type} {FO : FloatOps F} {DO : DoubleOps F D} {CV : CvLib F D}.

(** Lines 51-59. *)
Definition phaseCorr_asserts (src1 src2 window : Mat) : Run unit :=
  CV_Assert (m_type src1 =? m_type src2);;
  CV_Assert ((m_type src1 =? CV_32FC1) || (m_type src1 =? CV_64FC1));;
  CV_Assert (same_size src1 src2);;
  if negb (mat_empty window) then
    CV_Assert (m_type src1 =? m_type window);;
    CV_Assert (same_size src1 window)
  else ret tt.

(** Lines 61-91: the padded patches, with the window applied. *)
Definition phaseCorr_pad (src1 src2 window : Mat) (M N : Z) : Run (Mat * Mat) :=
  '(padded1, padded2, paddedWin) ←
    (if negb (M =? m_rows src1) || negb (N =? m_cols src1) then
       padded1 ← copyMakeBorder src1 (int_sub M (m_rows src1)) (int_sub N (m_cols src1));
       padded2 ← copyMakeBorder src2 (int_sub M (m_rows src2)) (int_sub N (m_cols src2));
       paddedWin ←
         (if negb (mat_empty window) then
            copyMakeBorder window (int_sub M (m_rows window)) (int_sub N (m_cols window))
          else ret Mat_default);
       ret (padded1, padded2, paddedWin)
     else
       ret (src1, src2, window));
  if negb (mat_empty paddedWin) then
    padded1 ← apply2 cv_multiply paddedWin padded1 padded1;
    padded2 ← apply2 cv_multiply paddedWin padded2 padded2;
    ret (padded1, padded2)
  else ret (padded1, padded2).

(** Lines 93-105: the shifted correlation surface [C]. *)
Definition phaseCorr_surface (padded1 padded2 : Mat) : Run Mat :=
  FFT1 ← apply1 cv_dft padded1 Mat_default;
  FFT2 ← apply1 cv_dft padded2 Mat_default;
  P ← apply2 cv_mulSpectrums FFT1 FFT2 Mat_default;
  Pm ← apply1 magSpectrums P Mat_default;
  C ← apply2 divSpectrums P Pm Mat_default;
  C ← apply1 cv_idft C C;
  apply1 fftShift C C.

(** [weightedCentroid(C, peakLoc, Size(5, 5), response)]: the centroid, and
    [response] after the call. *)
Definition call_weightedCentroid (C : Mat) (peakLoc : Point) (response : option D)
  : Run (Point2 F * option D) :=
  c ← read_mat C;
  let '(t, r) := weightedCentroid c peakLoc (5, 5) in
  ret (t, (fun _ => r) <$> response).

Definition point_sub (a b : Point2 F) : Point2 F :=
  mkPoint (f_sub (px a) (px b)) (f_sub (py a) (py b)).

(** Lines 107-126: the two peaks, and the response. *)
Definition phaseCorr_peaks (C padded1 : Mat) (M N : Z) (response : option D)
  : Run (Point2 F * Point2 F * option D) :=
  c ← read_mat C;
  let peakLoc := minMaxLoc c in
  '(t1, response) ← call_weightedCentroid C peakLoc response;
  set_at_float_zero C peakLoc;;
  c ← read_mat C;
  let peakLoc := minMaxLoc c in
  '(t2, response) ← call_weightedCentroid C peakLoc response;
  let response := (fun r => d_div r (d_of_int (int_mul M N))) <$> response in
  let center :=
    mkPoint (d_to_float (d_div (d_of_int (m_cols padded1)) (d_of_int 2)))
            (d_to_float (d_div (d_of_int (m_rows padded1)) (d_of_int 2))) in
  ret (point_sub center t1, point_sub center t2, response).

(** [response] is [None] for the null pointer (the default argument) and
    [Some v] for a pointer to a [double] holding [v]; the result carries the
    two returned points and [response] as the call leaves it. *)
Definition phaseCorr (src1 src2 window : Mat) (response : option D)
  : Run (Point2 F * Point2 F * option D) :=
  phaseCorr_asserts src1 src2 window;;
  let M := getOptimalDFTSize (m_rows src1) in
  let N := getOptimalDFTSize (m_cols src1) in
  '(padded1, padded2) ← phaseCorr_pad src1 src2 window M N;
  C ← phaseCorr_surface padded1 padded2;
  phaseCorr_peaks C padded1 M N response.

(** The score the contract promises for the candidate found on the surface
    [c]: its own response, over the padded size. *)
Definition promised_score (c : Dense) (M N : Z) : D :=
  d_div (weightedCentroid c (minMaxLoc c) (5, 5)).2 (d_of_int (int_mul M N)).

(** The centre of the padded patch. *)
Definition patch_center (padded1 : Mat) : Point2 F :=
  mkPoint (d_to_float (d_div (d_of_int (m_cols padded1)) (d_of_int 2)))
          (d_to_float (d_div (d_of_int (m_rows padded1)) (d_of_int 2))).

End PhaseCorr.

(** The contract of [phaseCorr], in the spec's words: patches of identical
    dimensions and type, the type a single-channel 32- or 64-bit float, and a
    supplied (non-empty) window of those dimensions and that type. *)
Definition phaseCorr_precondition (src1 src2 window : Mat) : Prop :=
  m_type src1 = m_type src2
  /\ (m_type src1 = CV_32FC1 \/ m_type src1 = CV_64FC1)
  /\ (m_rows src1 = m_rows src2 /\ m_cols src1 = m_cols src2)
  /\ (mat_empty window = false ->
      m_type window = m_type src1
      /\ m_rows window = m_rows src1 /\ m_cols window = m_cols src1).

(** A computation in which no [CV_Assert] of the function fails. *)
Definition never_asserts {A} (m : Run A) : Prop := forall st, m st <> AssertFailed.

(** A computation that returns with the store it started from. *)
Definition preserves_store {A} (m : Run A) : Prop :=
  forall st a st', m st = Ok (a, st') -> st' = st.

(** A header that does not point into buffer [b]. *)
Definition avoids (b : positive) (m : Mat) : Prop :=
  forall b' off, m_data m = Some (b', off) -> b' <> b.

(** A computation that leaves the existing buffer [b] as it is. *)
Definition keeps (b : positive) {A} (m : Run A) : Prop :=
  forall st a st', is_Some (st !! b) -> m st = Ok (a, st') ->
    st' !! b = st !! b.

(** A computation that frees no buffer. *)
Definition grows {A} (m : Run A) : Prop :=
  forall st a st' b, m st = Ok (a, st') -> is_Some (st !! b) -> is_Some (st' !! b).

(** Contents that fill their rows. *)
Definition dense_wf (d : Dense) : Prop :=
  length (d_bytes d)
  = (Z.to_nat (d_rows d) * Z.to_nat (d_cols d * elemSize (d_type d)))%nat.

(** The value a call returned, and a buffer as the call left it. *)
Definition value_of {A} (o : outcome (A * store)) : option A :=
  match o with Ok (a, _) => Some a | _ => None end.
Definition buffer_after {A} (o : outcome (A * store)) (b : positive)
  : option (list Byte.byte) :=
  match o with Ok (_, st) => st !! b | _ => None end.

(** ** writeToFile (util.cpp, lines 205-213) *)

(** An output stream: [s_fail] is what [!file] tests (failbit or badbit, as
    a failed open leaves them), [s_sink] the characters that reached the
    sink.  [cout] is the text written to standard output. *)
Record ofstream := mkStream { s_fail : bool; s_sink : string }.

Record world := mkWorld { w_file : ofstream; w_cout : string }.

(** A call returns, or the process ends through [exit(status)]. *)
Inductive ending :=
  | Returned (w : world)
  | Exited (status : Z) (w : world).

Definition newline : string := String (ascii_of_nat 10) EmptyString.

(** [operator<<] of an integer: its decimal digits, with a minus sign
    before a negative one. *)
Definition decimal (z : Z) : string := NilZero.string_of_int (Z.to_int z).

(** [file << text] on a stream in a good state. *)
Definition insert_text (file : ofstream) (text : string) : ofstream :=
  mkStream (s_fail file) (s_sink file ++ text)%string.

Definition writeToFile (file : ofstream) (duration_count : Z) (cout : string) : ending :=
  if s_fail file then
    Exited (-1) (mkWorld file (cout ++ "Could not open the file" ++ newline)%string)
  else
    Returned
      (mkWorld
         (insert_text
            (insert_text (insert_text file "Interpolated frame in :") (decimal duration_count))
            (" milliseconds " ++ newline)%string)
         cout).

(** The number of line ends in a text. *)
Fixpoint count_newlines (s : string) : nat :=
  match s with
  | EmptyString => 0
  | String c s' => (if Ascii.eqb c (ascii_of_nat 10) then 1 else 0) + count_newlines s'
  end.

(** A line of text: characters other than the line end, then one line end. *)
Definition is_line (s : string) : Prop :=
  exists body, s = (body ++ newline)%string /\ count_newlines body = 0%nat.

(** ** An instance for running the model on examples

    The statements about [phaseCorr] below hold for every [CvLib]; this
    instance runs it on IEEE-754 data.  OpenCV's routines are written after
    their documentation; the spectral routines are the ones of one-sample
    patches (a 1-point transform is the identity), the only patches the
    examples use. *)

#[export] Instance ieee64 : DoubleOps IEEE.f32 IEEE.f64 := {
  d_of_int := IEEE.f64_of_Z;
  d_div := SFdiv 53 1024;
  d_to_float := IEEE.f64_to_f32;
}.

Module Ref.

Definition mant_bits (type : Z) : Z := if type =? CV_64FC1 then 52 else 23.
Definition expo_bits (type : Z) : Z := if type =? CV_64FC1 then 11 else 8.
Definition prec (type : Z) : Z := mant_bits type + 1.
Definition emax (type : Z) : Z := 2 ^ (expo_bits type - 1).

(** The elements of a matrix of floats or doubles, row by row. *)
Definition elements (d : Dense) : list spec_float :=
  map (fun bs => IEEE.of_bits (mant_bits (d_type d)) (expo_bits (d_type d)) (le_bits bs))
      (reshape (replicate (Z.to_nat (d_rows d * d_cols d))
                          (Z.to_nat (elemSize (d_type d))))
               (d_bytes d)).

Definition of_elements (rows cols type : Z) (xs : list spec_float) : Dense :=
  mkDense rows cols type
    (concat (map (fun x => le_bytes (Z.to_nat (elemSize type))
                             (IEEE.to_bits (mant_bits type) (expo_bits type) x)) xs)).

Definition pointwise1 (f : spec_float -> spec_float) (a : Dense) : Dense :=
  of_elements (d_rows a) (d_cols a) (d_type a) (map f (elements a)).

Definition pointwise2 (f : Z -> Z -> spec_float -> spec_float -> spec_float)
    (a b : Dense) : Dense :=
  of_elements (d_rows a) (d_cols a) (d_type a)
    (zip_with (f (prec (d_type a)) (emax (d_type a))) (elements a) (elements b)).

(** [getOptimalDFTSize]: the smallest product of powers of 2, 3 and 5 that
    is at least [vecsize]; -1 past the largest size of its table. *)
Fixpoint strip_factor (fuel : nat) (p n : Z) : Z :=
  match fuel with
  | O => n
  | S fuel' => if (1 <? n) && (n mod p =? 0) then strip_factor fuel' p (n / p) else n
  end.

Definition is_smooth (n : Z) : bool :=
  strip_factor 32 5 (strip_factor 32 3 (strip_factor 32 2 n)) =? 1.

Fixpoint next_smooth (fuel : nat) (n : Z) : Z :=
  match fuel with
  | O => n
  | S fuel' => if is_smooth n then n else next_smooth fuel' (n + 1)
  end.

Definition optimal_size (vecsize : Z) : Z :=
  if (vecsize <? 0) || (2125764000 <? vecsize) then -1
  else if vecsize =? 0 then 1
  else next_smooth (Z.to_nat vecsize) vecsize.

(** [minMaxLoc]'s maximum: the first largest element in scan order. *)
Fixpoint argmax (best_at : nat) (best : spec_float) (i : nat) (xs : list spec_float) : nat :=
  match xs with
  | [] => best_at
  | x :: xs' =>
      if SFltb best x then argmax i x (S i) xs' else argmax best_at best (S i) xs'
  end.

Definition max_loc (d : Dense) : Point :=
  match elements d with
  | [] => mkLoc (-1) (-1)
  | x :: xs =>
      let k := Z.of_nat (argmax 0 x 1 xs) in
      mkLoc (k mod d_cols d) (k / d_cols d)
  end.

Definition value_at (d : Dense) (y x : Z) : spec_float :=
  nth (Z.to_nat (y * d_cols d + x)) (elements d) S754_nan.

(** Modelled from the spec: [weightedCentroid] of opencv_methods.hpp (not
    among the sources).  The centroid of the values of the neighbourhood of
    the given size around the peak, clipped to the matrix, each position
    weighted by its value (a neighbourhood whose values sum to zero has
    none: the quotient is a NaN); the response is the value at the peak. *)
Definition weighted_centroid (d : Dense) (peak : Point) (size : Z * Z)
  : Point2 IEEE.f32 * IEEE.f64 :=
  let minr := Z.max 0 (pty peak - size.2 / 2) in
  let maxr := Z.min (d_rows d - 1) (pty peak + size.2 / 2) in
  let minc := Z.max 0 (ptx peak - size.1 / 2) in
  let maxc := Z.min (d_cols d - 1) (ptx peak + size.1 / 2) in
  let cells := y ← seqZ minr (maxr - minr + 1); x ← seqZ minc (maxc - minc + 1); [(y, x)] in
  let total (w : Z * Z -> spec_float) :=
    fold_left (fun acc yx => SFadd 53 1024 acc (SFmul 53 1024 (w yx) (value_at d yx.1 yx.2)))
              cells (S754_zero false) in
  let sum := total (fun _ => IEEE.f64_of_Z 1) in
  let sum_x := total (fun yx => IEEE.f64_of_Z yx.2) in
  let sum_y := total (fun yx => IEEE.f64_of_Z yx.1) in
  (mkPoint (IEEE.f64_to_f32 (SFdiv 53 1024 sum_x sum))
           (IEEE.f64_to_f32 (SFdiv 53 1024 sum_y sum)),
   value_at d (pty peak) (ptx peak)).

(** Modelled from the spec: [magSpectrums], [divSpectrums] and [fftShift]
    of opencv_methods.hpp (not among the sources), on one-sample patches:
    the magnitude of the sample, the quotient of the samples (the spectrum
    normalised by its own magnitude), and no shift. *)
Definition lib : CvLib IEEE.f32 IEEE.f64 := {|
  getOptimalDFTSize := optimal_size;
  cv_multiply := pointwise2 SFmul;
  cv_dft := fun a => a;
  cv_mulSpectrums := pointwise2 SFmul;
  magSpectrums := pointwise1 SFabs;
  divSpectrums := pointwise2 SFdiv;
  cv_idft := fun a => a;
  fftShift := fun a => a;
  minMaxLoc := max_loc;
  weightedCentroid := weighted_centroid;
|}.

(** The bytes of a [float] and of a [double] holding the integer [z]. *)
Definition float_bytes (z : Z) : list Byte.byte :=
  le_bytes 4 (IEEE.to_bits 23 8 (IEEE.f32_of_Z z)).
Definition double_bytes (z : Z) : list Byte.byte :=
  le_bytes 8 (IEEE.to_bits 52 11 (IEEE.f64_of_Z z)).

(** The [float] halves and quarters used by the examples. *)
Definition f32_ratio (n d : Z) : IEEE.f32 := SFdiv 24 128 (IEEE.f32_of_Z n) (IEEE.f32_of_Z d).

End Ref.

(** ** Data of the examples *)

Module Examples.

Definition P (x y : Z) : Point2 IEEE.f32 := mkPoint (IEEE.f32_of_Z x) (IEEE.f32_of_Z y).

(** A 2 by 2 motion field. *)
Definition grid22 : MotionField IEEE.f32 := [[P 0 0; P 2 2]; [P 4 4; P 9 9]].

(** One-sample CV_32FC1 patches holding 2.0 and 3.0 and a window holding
    0.5, in buffers 1, 2 and 3. *)
Definition patches : store :=
  <[1%positive := Ref.float_bytes 2]>
    (<[2%positive := Ref.float_bytes 3]>
       (<[3%positive := le_bytes 4 (IEEE.to_bits 23 8 (Ref.f32_ratio 1 2))]> ∅)).
Definition patch1 : Mat := mkMat 1 1 CV_32FC1 (Some (1%positive, 0)) 4.
Definition patch2 : Mat := mkMat 1 1 CV_32FC1 (Some (2%positive, 0)) 4.
Definition window1 : Mat := mkMat 1 1 CV_32FC1 (Some (3%positive, 0)) 4.

(** The correlation surface [phaseCorr] computes for the two patches. *)
Definition patch_surface : Run Dense :=
  '(padded1, padded2) ←
    phaseCorr_pad (CV := Ref.lib) patch1 patch2 Mat_default
      (Ref.optimal_size (m_rows patch1)) (Ref.optimal_size (m_cols patch1));
  C ← phaseCorr_surface (CV := Ref.lib) padded1 padded2;
  read_mat C.

(** A 1 by 2 CV_32FC1 correlation surface holding 3.0 and 1.0. *)
Definition surface_store : store :=
  <[1%positive := Ref.float_bytes 3 ++ Ref.float_bytes 1]> ∅.
Definition surface : Mat := mkMat 1 2 CV_32FC1 (Some (1%positive, 0)) 8.
Definition surface_contents : Dense :=
  mkDense 1 2 CV_32FC1 (Ref.float_bytes 3 ++ Ref.float_bytes 1).

(** A one-pixel CV_32FC1 block holding 1.0 and a one-pixel frame holding
    100.0, in buffers 1 and 2. *)
Definition dim_block_store : store :=
  <[1%positive := Ref.float_bytes 1]> (<[2%positive := Ref.float_bytes 100]> ∅).
Definition block11 : Mat := mkMat 1 1 CV_32FC1 (Some (1%positive, 0)) 4.
Definition frame11 : Mat := mkMat 1 1 CV_32FC1 (Some (2%positive, 0)) 4.

(** The same shapes with exact integer samples: a block holding 1 and a
    frame holding 1. *)
Definition int_store : store :=
  <[1%positive := le_bytes 4 1]> (<[2%positive := le_bytes 4 1]> ∅).

(** A one-pixel CV_64FC1 block holding the double 1.0 and a one-pixel
    CV_64FC1 frame holding the double 3.0, in buffers 1 and 2. *)
Definition double_store : store :=
  <[1%positive := Ref.double_bytes 1]> (<[2%positive := Ref.double_bytes 3]> ∅).
Definition dblock : Mat := mkMat 1 1 CV_64FC1 (Some (1%positive, 0)) 8.
Definition dframe : Mat := mkMat 1 1 CV_64FC1 (Some (2%positive, 0)) 8.

(** A 1 by 2 CV_64FC1 surface holding the doubles 1.0 and 3.0. *)
Definition dsurface_store : store :=
  <[1%positive := Ref.double_bytes 1 ++ Ref.double_bytes 3]> ∅.
Definition dsurface : Mat := mkMat 1 2 CV_64FC1 (Some (1%positive, 0)) 16.

End Examples.

(** * Theorems *)

(** ** Machine integers *)

Lemma wrap_int_id z : in_int z -> wrap_int z = z.
Proof.
  unfold in_int, INT_MIN, INT_MAX, wrap_int. intros Hz.
  rewrite Z.mod_small by lia. lia.
Qed.

Lemma int_add_exact a b : in_int (a + b) -> int_add a b = a + b.
Proof. apply wrap_int_id. Qed.

Lemma int_sub_exact a b : in_int (a - b) -> int_sub a b = a - b.
Proof. apply wrap_int_id. Qed.

Lemma in_int_grid z : 0 <= z < INT_MAX -> in_int (z + 1) /\ in_int (z - 1).
Proof. unfold in_int, INT_MIN, INT_MAX. lia. Qed.

Section MedianNeighborFacts.
Context {F : Type} {FO : FloatOps F}.
Implicit Types g : list (list (Point2 F)).

(** The three vectors stored in [neighborMV], in terms of the positions read. *)
Lemma neighbors_read g (p0 p1 p2 : Z * Z) :
  (n0 ← mv_at g p0.1 p0.2; n1 ← mv_at g p1.1 p1.2; n2 ← mv_at g p2.1 p2.2;
   Some (<[2%nat := n2]> (<[1%nat := n1]> (<[0%nat := n0]>
           (replicate 3 (mkPoint (f_zero : F) f_zero))))))
  = mapM (fun p => mv_at g p.1 p.2) [p0; p1; p2].
Proof.
  simpl. destruct (mv_at g p0.1 p0.2); simpl; [|done].
  destruct (mv_at g p1.1 p1.2); simpl; [|done].
  destruct (mv_at g p2.1 p2.2); simpl; done.
Qed.

Lemma selectNeighbors_case_table g rowpos colpos :
  0 <= rowpos < INT_MAX -> 0 <= colpos < INT_MAX ->
  selectNeighbors rowpos colpos g
  = mapM (fun p => mv_at g p.1 p.2) (case_table rowpos colpos).
Proof.
  intros Hr Hc.
  destruct (in_int_grid _ Hr) as [Hr1 Hr2], (in_int_grid _ Hc) as [Hc1 Hc2].
  unfold selectNeighbors, case_table, position_class.
  rewrite !int_add_exact, !int_sub_exact by assumption.
  destruct (Z.eqb_spec rowpos 0) as [->|Hr0], (Z.eqb_spec colpos 0) as [->|Hc0];
    cbn [andb].
  - apply (neighbors_read g (0, 0 + 1) (0 + 1, 0) (0 + 1, 0 + 1)).
  - replace (colpos - 1 <? 0) with false by (symmetry; apply Z.ltb_ge; lia).
    cbn [andb].
    apply (neighbors_read g (0, colpos - 1) (0 + 1, colpos - 1) (0 + 1, colpos)).
  - replace (rowpos - 1 <? 0) with false by (symmetry; apply Z.ltb_ge; lia).
    cbn [andb].
    apply (neighbors_read g (rowpos - 1, 0) (rowpos - 1, 0 + 1) (rowpos, 0 + 1)).
  - replace (rowpos - 1 <? 0) with false by (symmetry; apply Z.ltb_ge; lia).
    replace (colpos - 1 <? 0) with false by (symmetry; apply Z.ltb_ge; lia).
    cbn [andb].
    apply (neighbors_read g (rowpos - 1, colpos - 1) (rowpos - 1, colpos) (rowpos, colpos - 1)).
Qed.

End MedianNeighborFacts.

Section MedianNeighborBounds.
Context {F : Type} {FO : FloatOps F}.
Implicit Types g : list (list (Point2 F)).

Lemma mv_at_is_Some g R C r c :
  rectangular g R C ->
  is_Some (mv_at g r c) <-> (0 <= r < R /\ 0 <= c < C).
Proof.
  intros [HR HC]. unfold mv_at.
  destruct (Z.leb_spec 0 r) as [Hr|Hr].
  - destruct (g !! Z.to_nat r) as [row|] eqn:Hrow; simpl.
    + assert (Z.of_nat (length row) = C) as Hlen.
      { rewrite Forall_forall in HC. apply HC.
        eapply list_elem_of_lookup_2; eauto. }
      apply lookup_lt_Some in Hrow.
      destruct (Z.leb_spec 0 c) as [Hc|Hc].
      * rewrite lookup_lt_is_Some. lia.
      * split; [intros [? ?]; discriminate | lia].
    + apply lookup_ge_None in Hrow.
      split; [intros [? ?]; discriminate | lia].
  - split; [intros [? ?]; discriminate | lia].
Qed.

Lemma reads_is_Some g R C (ps : list (Z * Z)) :
  rectangular g R C ->
  is_Some (mapM (fun p => mv_at g p.1 p.2) ps)
  <-> Forall (fun p => 0 <= p.1 < R /\ 0 <= p.2 < C) ps.
Proof.
  intros Hg. rewrite mapM_is_Some. apply Forall_iff. intros p.
  apply (mv_at_is_Some g R C p.1 p.2 Hg).
Qed.

Lemma selectNeighbors_in_bounds g R C rowpos colpos :
  rectangular g R C -> R <= INT_MAX -> C <= INT_MAX ->
  0 <= rowpos < R -> 0 <= colpos < C ->
  is_Some (selectNeighbors rowpos colpos g)
  <-> ~ ((rowpos = 0 /\ R = 1) \/ (colpos = 0 /\ C = 1)).
Proof.
  intros Hg HR HC Hr Hc.
  rewrite selectNeighbors_case_table by lia.
  rewrite (reads_is_Some g R C _ Hg).
  unfold case_table, position_class.
  destruct (Z.eqb_spec rowpos 0) as [->|Hr0], (Z.eqb_spec colpos 0) as [->|Hc0];
    cbn [andb]; rewrite !Forall_cons, Forall_nil;
    unfold right_of, left_of, below, above; cbn [fst snd]; lia.
Qed.

End MedianNeighborBounds.

(** ** Loops *)

Lemma bind_Ok {A B} (m : Run A) (k : A -> Run B) st a st' :
  m st = Ok (a, st') -> (x ← m; k x) st = k a st'.
Proof. intros H. unfold mbind, Run_bind, bind. now rewrite H. Qed.

(** A loop whose body only computes: the fold of its step over the indices. *)
Lemma for_loop_fold {S : Type} (step : Z -> S -> S) (body : Z -> S -> Run S) st :
  forall n i0 s,
    (forall i s, i0 <= i < i0 + Z.of_nat n -> body i s st = Ok (step i s, st)) ->
    for_loop n i0 body s st
    = Ok (fold_left (fun s i => step i s) (seqZ i0 (Z.of_nat n)) s, st).
Proof.
  induction n as [|n IH]; intros i0 s Hbody.
  - reflexivity.
  - cbn [for_loop].
    assert (body i0 s st = Ok (step i0 s, st)) as H0 by (apply Hbody; lia).
    rewrite (bind_Ok _ _ _ _ _ H0).
    rewrite IH by (intros; apply Hbody; lia).
    replace (Z.of_nat (Datatypes.S n)) with (Z.succ (Z.of_nat n)) by lia.
    rewrite (seqZ_cons i0) by lia. cbn [fold_left].
    replace (Z.pred (Z.succ (Z.of_nat n))) with (Z.of_nat n) by lia.
    now replace (Z.succ i0) with (i0 + 1) by lia.
Qed.

Lemma for_int_fold {S : Type} (step : Z -> S -> S) (body : Z -> S -> Run S) st bound s :
  (forall i s, 0 <= i < bound -> body i s st = Ok (step i s, st)) ->
  for_int bound body s st = Ok (fold_left (fun s i => step i s) (seqZ 0 bound) s, st).
Proof.
  intros Hbody. unfold for_int.
  rewrite (for_loop_fold step) by (intros; apply Hbody; lia).
  destruct (Z.le_gt_cases 0 bound).
  - now rewrite Z2Nat.id.
  - replace (Z.to_nat bound) with 0%nat by lia. cbn.
    unfold seqZ. now replace (Z.to_nat bound) with 0%nat by lia.
Qed.

(** ** Pixels of a CV_32FC1 matrix *)

Lemma elemSize_32FC1 : elemSize CV_32FC1 = sizeof_float.
Proof. reflexivity. Qed.

Lemma elemSize_64FC1 : elemSize CV_64FC1 = 8.
Proof. reflexivity. Qed.

Section Pixels.
Context {F : Type} {FO : FloatOps F}.

Lemma at_float_bytes_elem st m i j :
  m_type m = CV_32FC1 -> at_float_bytes st m i j = elem_bytes st m i j.
Proof. intros Ht. unfold at_float_bytes, elem_bytes. now rewrite Ht, elemSize_32FC1. Qed.

Lemma pixel_32FC1 st m i j :
  m_type m = CV_32FC1 -> pixel st m i j = f_decode <$> at_float_bytes st m i j.
Proof.
  intros Ht. rewrite (at_float_bytes_elem _ _ _ _ Ht). unfold pixel. rewrite Ht.
  now destruct (elem_bytes st m i j).
Qed.

(** [at<float>] on a CV_32FC1 matrix reads the pixel. *)
Lemma at_float_pixel st m i j v :
  m_type m = CV_32FC1 -> pixel st m i j = Some v -> at_float m i j st = Ok (v, st).
Proof.
  intros Ht. rewrite (pixel_32FC1 _ _ _ _ Ht). unfold at_float.
  destruct (at_float_bytes st m i j) as [bs|] eqn:Hbs; [|discriminate].
  intros [= <-]. cbv [mbind Run_bind bind get_store]. now rewrite Hbs.
Qed.

Lemma load_is_Some st b buf addr n :
  st !! b = Some buf -> 0 <= addr -> 0 <= n -> addr + n <= Z.of_nat (length buf) ->
  is_Some (load st b addr n).
Proof.
  intros Hb Ha Hn Hlen. unfold load. rewrite Hb. cbn.
  destruct (Z.leb_spec 0 addr); [|lia]. destruct (Z.leb_spec 0 n); [|lia].
  destruct (Z.leb_spec (addr + n) (Z.of_nat (length buf))); [|lia].
  cbn. eauto.
Qed.

Lemma elem_bytes_is_Some st m i j :
  mat_valid st m -> 0 <= elemSize (m_type m) ->
  0 <= i < m_rows m -> 0 <= j < m_cols m ->
  is_Some (elem_bytes st m i j).
Proof.
  intros (b & off & buf & Hd & Hb & Hoff & Hr & Hc & Hstep & Hlen) He Hi Hj.
  unfold elem_bytes, at_addr. rewrite Hd. cbn.
  specialize (Hlen ltac:(lia)).
  eapply load_is_Some; eauto; nia.
Qed.

Lemma pixel_is_Some st m i j :
  mat_valid st m -> m_type m = CV_32FC1 ->
  0 <= i < m_rows m -> 0 <= j < m_cols m ->
  is_Some (pixel st m i j).
Proof.
  intros Hv Ht Hi Hj.
  destruct (elem_bytes_is_Some st m i j Hv) as [bs Hbs]; try assumption.
  { rewrite Ht. now rewrite elemSize_32FC1. }
  unfold pixel. rewrite Hbs, Ht. cbn. eauto.
Qed.

End Pixels.

Section CalcSADFacts.
Context {F : Type} {FO : FloatOps F}.
Variable BLOCK_SIZE : Z.

(** The test of line 143 is the negation of [inside_frame]. *)
Lemma outside_test curr r c :
  (r <? 0) || (r >=? m_rows curr) || (c <? 0) || (c >=? m_cols curr)
  = negb (inside_frame curr r c).
Proof.
  unfold inside_frame.
  destruct (Z.ltb_spec r 0), (Z.leb_spec 0 r), (Z.geb_spec r (m_rows curr)),
    (Z.ltb_spec r (m_rows curr)), (Z.ltb_spec c 0), (Z.leb_spec 0 c),
    (Z.geb_spec c (m_cols curr)), (Z.ltb_spec c (m_cols curr));
    cbn; try reflexivity; lia.
Qed.

Section Fixed.
Variables (st : store) (prevBlock curr : Mat) (rowpos colpos : Z) (dx dy : F).
Hypothesis prev_type : m_type prevBlock = CV_32FC1.
Hypothesis curr_type : m_type curr = CV_32FC1.
Hypothesis prev_valid : mat_valid st prevBlock.
Hypothesis curr_valid : mat_valid st curr.

Let cost := cost_of BLOCK_SIZE st prevBlock rowpos colpos curr dx dy.

Lemma pixel_cost_defined i j :
  0 <= i < m_rows prevBlock -> 0 <= j < m_cols prevBlock ->
  pixel_cost BLOCK_SIZE st prevBlock rowpos colpos curr dx dy (i, j) = Some (cost (i, j)).
Proof.
  intros Hi Hj. unfold cost, cost_of, pixel_cost. cbn [fst snd].
  destruct (pixel_is_Some st prevBlock i j prev_valid prev_type Hi Hj) as [p ->].
  cbn. destruct (inside_frame curr _ _) eqn:Hin; [|reflexivity].
  unfold inside_frame in Hin. rewrite !andb_true_iff in Hin.
  destruct Hin as [[[H1 H2] H3] H4].
  apply Z.leb_le in H1, H3. apply Z.ltb_lt in H2, H4.
  destruct (pixel_is_Some st curr _ _ curr_valid curr_type (conj H1 H2) (conj H3 H4))
    as [q ->].
  reflexivity.
Qed.

(** One iteration of the inner loop adds the pixel's term. *)
Lemma inner_body i j (SAD : F) :
  0 <= i < m_rows prevBlock -> 0 <= j < m_cols prevBlock ->
  (if (int_add (int_add i (int_mul rowpos BLOCK_SIZE)) (f_round_int dy) <? 0)
      || (int_add (int_add i (int_mul rowpos BLOCK_SIZE)) (f_round_int dy) >=? m_rows curr)
      || (int_add (int_add j (int_mul colpos BLOCK_SIZE)) (f_round_int dx) <? 0)
      || (int_add (int_add j (int_mul colpos BLOCK_SIZE)) (f_round_int dx) >=? m_cols curr)
   then p ← at_float prevBlock i j; ret (f_add SAD p)
   else p ← at_float prevBlock i j;
        q ← at_float curr (int_add (int_add i (int_mul rowpos BLOCK_SIZE)) (f_round_int dy))
                          (int_add (int_add j (int_mul colpos BLOCK_SIZE)) (f_round_int dx));
        ret (f_add SAD (f_abs (f_sub p q)))) st
  = Ok (f_add SAD (cost (i, j)), st).
Proof.
  intros Hi Hj. rewrite outside_test.
  pose proof (pixel_cost_defined i j Hi Hj) as Hc.
  unfold pixel_cost, target_row, target_col in Hc. cbn [fst snd] in Hc.
  destruct (pixel_is_Some st prevBlock i j prev_valid prev_type Hi Hj) as [p Hp].
  rewrite Hp in Hc. cbn in Hc.
  destruct (inside_frame curr _ _) eqn:Hin; cbn [negb].
  - destruct (pixel st curr _ _) as [q|] eqn:Hq; [|discriminate]. cbn in Hc.
    injection Hc as <-.
    rewrite (bind_Ok _ _ _ _ _ (at_float_pixel _ _ _ _ _ prev_type Hp)).
    rewrite (bind_Ok _ _ _ _ _ (at_float_pixel _ _ _ _ _ curr_type Hq)).
    reflexivity.
  - injection Hc as <-.
    rewrite (bind_Ok _ _ _ _ _ (at_float_pixel _ _ _ _ _ prev_type Hp)).
    reflexivity.
Qed.

End Fixed.
End CalcSADFacts.

Section Folds.
Context {F : Type} {FO : FloatOps F}.

(** Accumulating the terms of the pixels row by row is the sum over the
    list of block pixels. *)
Lemma fold_rows_cols (cost : Z * Z -> F) (js : list Z) :
  forall (il : list Z) (acc : F),
    fold_left (fun acc i => fold_left (fun acc j => f_add acc (cost (i, j))) js acc) il acc
    = fold_left f_add (map cost (i ← il; j ← js; [(i, j)])) acc.
Proof.
  induction il as [|i il IH]; intros acc; [reflexivity|].
  cbn [fold_left]. rewrite IH.
  change ((i :: il) ≫= (fun i => j ← js; [(i, j)]))
    with ((j ← js; [(i, j)]) ++ (il ≫= (fun i => j ← js; [(i, j)]))).
  rewrite map_app, fold_left_app. f_equal.
  clear. revert acc. induction js as [|j js IH]; intros acc; [reflexivity|].
  cbn. apply IH.
Qed.

Lemma block_pixels_range rows cols i j :
  (i, j) ∈ block_pixels rows cols <-> (0 <= i < rows /\ 0 <= j < cols).
Proof.
  unfold block_pixels. rewrite list_elem_of_bind. split.
  - intros (i' & Hj & Hi). apply list_elem_of_bind in Hj as (j' & Hij & Hj).
    apply list_elem_of_singleton in Hij as [= -> ->].
    apply elem_of_seqZ in Hi, Hj. lia.
  - intros [Hi Hj]. exists i. split; [|apply elem_of_seqZ; lia].
    apply list_elem_of_bind. exists j. split; [now apply list_elem_of_singleton|apply elem_of_seqZ; lia].
Qed.

Lemma mapM_total {A B} (f : A -> option B) (g : A -> B) (l : list A) :
  (forall x, x ∈ l -> f x = Some (g x)) -> mapM f l = Some (map g l).
Proof.
  intros H. apply mapM_Some. apply Forall2_fmap_r, Forall_Forall2_diag.
  now apply Forall_forall.
Qed.

End Folds.

Section CalcSADSpec.
Context {F : Type} {FO : FloatOps F}.
Variable BLOCK_SIZE : Z.

(** [calcSAD] on CV_32FC1 frames: it returns the sum of the pixel terms and
    leaves the store as it was. *)
Lemma calcSAD_sum st prevBlock rowpos colpos curr (dx dy : F) :
  m_type prevBlock = CV_32FC1 -> m_type curr = CV_32FC1 ->
  mat_valid st prevBlock -> mat_valid st curr ->
  let terms := map (cost_of BLOCK_SIZE st prevBlock rowpos colpos curr dx dy)
                   (block_pixels (m_rows prevBlock) (m_cols prevBlock)) in
  mapM (pixel_cost BLOCK_SIZE st prevBlock rowpos colpos curr dx dy)
       (block_pixels (m_rows prevBlock) (m_cols prevBlock)) = Some terms
  /\ calcSAD BLOCK_SIZE prevBlock rowpos colpos curr dx dy st = Ok (f_sum terms, st).
Proof.
  intros Hp Hc Hvp Hvc terms. split.
  - apply mapM_total. intros [i j] Hij. apply block_pixels_range in Hij as [Hi Hj].
    now apply pixel_cost_defined.
  - unfold calcSAD. rewrite Hp, Hc. cbn [Z.eqb orb].
    unfold CV_Assert. cbv [mbind Run_bind bind].
    change (CV_32FC1 =? CV_32FC1) with true. cbn [orb].
    set (cost := cost_of BLOCK_SIZE st prevBlock rowpos colpos curr dx dy).
    rewrite (for_int_fold
               (fun i acc => fold_left (fun acc j => f_add acc (cost (i, j)))
                                       (seqZ 0 (m_cols prevBlock)) acc)).
    + unfold terms, f_sum, block_pixels. now rewrite fold_rows_cols.
    + intros i acc Hi.
      apply (for_int_fold (fun j acc => f_add acc (cost (i, j)))).
      intros j acc' Hj.
      apply (inner_body BLOCK_SIZE st prevBlock curr rowpos colpos dx dy Hp Hc Hvp Hvc
               i j acc' Hi Hj).
Qed.

End CalcSADSpec.

Section Monotone.
Context {F : Type} {FO : FloatOps F} {MA : MonotoneAdd F}.

Lemma f_sum_mono (l1 l2 : list F) :
  Forall2 f_le l1 l2 -> forall a b, f_le a b ->
  f_le (fold_left f_add l1 a) (fold_left f_add l2 b).
Proof.
  induction 1 as [|x y l1 l2 Hxy _ IH]; intros a b Hab; [exact Hab|].
  cbn. apply IH. now apply f_add_mono.
Qed.

Variable BLOCK_SIZE : Z.

Lemma outside_pixels_spec prevBlock rowpos colpos curr (dx dy : F) ij :
  ij ∈ outside_pixels BLOCK_SIZE prevBlock rowpos colpos curr dx dy
  <-> ij ∈ block_pixels (m_rows prevBlock) (m_cols prevBlock)
      /\ inside_frame curr (target_row BLOCK_SIZE rowpos dy ij.1)
                           (target_col BLOCK_SIZE colpos dx ij.2) = false.
Proof. unfold outside_pixels. rewrite list_elem_of_filter. tauto. Qed.

Lemma calcSAD_dominated st prevBlock rowpos colpos curr (dx1 dy1 dx2 dy2 : F) :
  m_type prevBlock = CV_32FC1 -> m_type curr = CV_32FC1 ->
  mat_valid st prevBlock -> mat_valid st curr ->
  outside_pixels BLOCK_SIZE prevBlock rowpos colpos curr dx1 dy1
    ⊆ outside_pixels BLOCK_SIZE prevBlock rowpos colpos curr dx2 dy2 ->
  (forall i j p q1 q2,
      0 <= i < m_rows prevBlock -> 0 <= j < m_cols prevBlock ->
      pixel st prevBlock i j = Some p ->
      inside_frame curr (target_row BLOCK_SIZE rowpos dy2 i)
                        (target_col BLOCK_SIZE colpos dx2 j) = true ->
      pixel st curr (target_row BLOCK_SIZE rowpos dy1 i)
                    (target_col BLOCK_SIZE colpos dx1 j) = Some q1 ->
      pixel st curr (target_row BLOCK_SIZE rowpos dy2 i)
                    (target_col BLOCK_SIZE colpos dx2 j) = Some q2 ->
      f_le (f_abs (f_sub p q1)) (f_abs (f_sub p q2))) ->
  (forall i j p q1,
      0 <= i < m_rows prevBlock -> 0 <= j < m_cols prevBlock ->
      pixel st prevBlock i j = Some p ->
      inside_frame curr (target_row BLOCK_SIZE rowpos dy1 i)
                        (target_col BLOCK_SIZE colpos dx1 j) = true ->
      inside_frame curr (target_row BLOCK_SIZE rowpos dy2 i)
                        (target_col BLOCK_SIZE colpos dx2 j) = false ->
      pixel st curr (target_row BLOCK_SIZE rowpos dy1 i)
                    (target_col BLOCK_SIZE colpos dx1 j) = Some q1 ->
      f_le (f_abs (f_sub p q1)) p) ->
  exists cost1 cost2,
    calcSAD BLOCK_SIZE prevBlock rowpos colpos curr dx1 dy1 st = Ok (cost1, st)
    /\ calcSAD BLOCK_SIZE prevBlock rowpos colpos curr dx2 dy2 st = Ok (cost2, st)
    /\ f_le cost1 cost2.
Proof.
  intros Hp Hc Hvp Hvc Hsub Hin Hout.
  destruct (calcSAD_sum BLOCK_SIZE st prevBlock rowpos colpos curr dx1 dy1 Hp Hc Hvp Hvc)
    as [_ H1].
  destruct (calcSAD_sum BLOCK_SIZE st prevBlock rowpos colpos curr dx2 dy2 Hp Hc Hvp Hvc)
    as [_ H2].
  eexists _, _. split; [exact H1|]. split; [exact H2|].
  unfold f_sum. apply f_sum_mono; [|apply f_le_refl].
  apply Forall2_fmap, Forall_Forall2_diag, Forall_forall.
  intros [i j] Hij.
  pose proof Hij as Hr. apply block_pixels_range in Hr as [Hi Hj].
  pose proof (pixel_cost_defined BLOCK_SIZE st prevBlock curr rowpos colpos dx1 dy1
                Hp Hc Hvp Hvc i j Hi Hj) as E1.
  pose proof (pixel_cost_defined BLOCK_SIZE st prevBlock curr rowpos colpos dx2 dy2
                Hp Hc Hvp Hvc i j Hi Hj) as E2.
  unfold pixel_cost in E1, E2. cbn [fst snd] in E1, E2.
  destruct (pixel st prevBlock i j) as [p|] eqn:Ep; [|discriminate].
  cbn in E1, E2.
  destruct (inside_frame curr (target_row BLOCK_SIZE rowpos dy1 i) _) eqn:In1;
    destruct (inside_frame curr (target_row BLOCK_SIZE rowpos dy2 i) _) eqn:In2.
  - destruct (pixel st curr (target_row BLOCK_SIZE rowpos dy1 i) _) as [q1|] eqn:Eq1;
      [|discriminate].
    destruct (pixel st curr (target_row BLOCK_SIZE rowpos dy2 i) _) as [q2|] eqn:Eq2;
      [|discriminate].
    cbn in E1, E2. injection E1 as <-. injection E2 as <-.
    eapply Hin; eauto.
  - destruct (pixel st curr (target_row BLOCK_SIZE rowpos dy1 i) _) as [q1|] eqn:Eq1;
      [|discriminate].
    cbn in E1. injection E1 as <-. injection E2 as <-.
    eapply Hout; eauto.
  - exfalso.
    assert ((i, j) ∈ outside_pixels BLOCK_SIZE prevBlock rowpos colpos curr dx2 dy2) as H.
    { apply Hsub, outside_pixels_spec. split; [exact Hij|exact In1]. }
    apply outside_pixels_spec in H as [_ H]. cbn [fst snd] in H. congruence.
  - injection E1 as <-. injection E2 as <-. apply f_le_refl.
Qed.

End Monotone.

Lemma na_ret {A} (a : A) : never_asserts (mret a).
Proof. intros st. discriminate. Qed.

Lemma na_bind {A B} (m : Run A) (k : A -> Run B) :
  never_asserts m -> (forall a, never_asserts (k a)) -> never_asserts (x ← m; k x).
Proof.
  intros Hm Hk st. cbv [mbind Run_bind bind].
  specialize (Hm st). destruct (m st) as [[a st']| | |]; [apply Hk|congruence..].
Qed.

Lemma na_lift_opt {A} (o : option A) : never_asserts (lift_opt o).
Proof. intros st. unfold lift_opt. destruct o; discriminate. Qed.

Lemma na_get_store : never_asserts get_store.
Proof. intros st. discriminate. Qed.

Lemma na_put_store st' : never_asserts (put_store st').
Proof. intros st. discriminate. Qed.

Lemma na_library_error {A} : never_asserts (@raise_library_error A).
Proof. intros st. discriminate. Qed.

Lemma na_for_loop {S} (body : Z -> S -> Run S) :
  (forall i s, never_asserts (body i s)) ->
  forall n i s, never_asserts (for_loop n i body s).
Proof.
  intros Hb. induction n as [|n IH]; intros i s; cbn [for_loop].
  - apply na_ret.
  - apply na_bind; [apply Hb|]. intros s'. apply IH.
Qed.

Lemma na_if {A} (b : bool) (m1 m2 : Run A) :
  never_asserts m1 -> never_asserts m2 -> never_asserts (if b then m1 else m2).
Proof. now destruct b. Qed.

Ltac na_step :=
  first
    [ apply na_ret | apply na_lift_opt | apply na_get_store | apply na_put_store
    | apply na_library_error
    | apply na_bind; [|intros ?]
    | apply na_if
    | apply na_for_loop; intros ? ? ].

Lemma na_read_mat m : never_asserts (read_mat m).
Proof. unfold read_mat. destruct (m_data m) as [[b off]|]; repeat na_step. Qed.

Lemma na_new_mat d : never_asserts (new_mat d).
Proof. intros st. discriminate. Qed.

Lemma na_write_rows m d : never_asserts (write_rows m d).
Proof.
  unfold write_rows, for_int. destruct (m_data m) as [[b off]|]; repeat na_step.
Qed.

Lemma na_output_to dst d : never_asserts (output_to dst d).
Proof.
  unfold output_to. apply na_if; [|apply na_new_mat].
  apply na_bind; [apply na_write_rows|]. intros ?. apply na_ret.
Qed.

Lemma na_apply1 f src dst : never_asserts (apply1 f src dst).
Proof. unfold apply1. apply na_bind; [apply na_read_mat|]. intros ?. apply na_output_to. Qed.

Lemma na_apply2 f a b dst : never_asserts (apply2 f a b dst).
Proof.
  unfold apply2. apply na_bind; [apply na_read_mat|]. intros ?.
  apply na_bind; [apply na_read_mat|]. intros ?. apply na_output_to.
Qed.

Lemma na_copyMakeBorder src bottom right : never_asserts (copyMakeBorder src bottom right).
Proof.
  unfold copyMakeBorder. apply na_if; [apply na_library_error|].
  apply na_bind; [apply na_read_mat|]. intros ?. apply na_new_mat.
Qed.

Lemma na_set_at_float_zero C pt : never_asserts (set_at_float_zero C pt).
Proof.
  unfold set_at_float_zero. apply na_bind; [apply na_get_store|]. intros st.
  apply na_bind; [apply na_lift_opt|]. intros [b a].
  apply na_bind; [apply na_lift_opt|]. intros st'. apply na_put_store.
Qed.

Section PhaseCorrAsserts.
Context {F D : Type} {FO : FloatOps F} {DO : DoubleOps F D} {CV : CvLib F D}.

Lemma na_pad src1 src2 window M N : never_asserts (phaseCorr_pad src1 src2 window M N).
Proof.
  unfold phaseCorr_pad. apply na_bind.
  - apply na_if; [|apply na_ret].
    apply na_bind; [apply na_copyMakeBorder|]. intros ?.
    apply na_bind; [apply na_copyMakeBorder|]. intros ?.
    apply na_bind; [|intros ?; apply na_ret].
    apply na_if; [apply na_copyMakeBorder|apply na_ret].
  - intros [[p1 p2] pw]. apply na_if; [|apply na_ret].
    apply na_bind; [apply na_apply2|]. intros ?.
    apply na_bind; [apply na_apply2|]. intros ?. apply na_ret.
Qed.

Lemma na_surface p1 p2 : never_asserts (phaseCorr_surface p1 p2).
Proof.
  unfold phaseCorr_surface.
  repeat (apply na_bind; [first [apply na_apply1|apply na_apply2]|intros ?]).
  apply na_apply1.
Qed.

Lemma na_call_wc C p (r : option D) : never_asserts (call_weightedCentroid C p r).
Proof.
  unfold call_weightedCentroid. apply na_bind; [apply na_read_mat|]. intros c.
  destruct (weightedCentroid c p (5, 5)). apply na_ret.
Qed.

Lemma na_peaks C p1 M N (r : option D) : never_asserts (phaseCorr_peaks C p1 M N r).
Proof.
  unfold phaseCorr_peaks.
  apply na_bind; [apply na_read_mat|]. intros c.
  apply na_bind; [apply na_call_wc|]. intros [t1 r1].
  apply na_bind; [apply na_set_at_float_zero|]. intros _.
  apply na_bind; [apply na_read_mat|]. intros c'.
  apply na_bind; [apply na_call_wc|]. intros [t2 r2]. apply na_ret.
Qed.

(** The five assertions pass exactly under the contract. *)
Lemma phaseCorr_asserts_spec src1 src2 window st :
  (phaseCorr_precondition src1 src2 window ->
   phaseCorr_asserts src1 src2 window st = Ok (tt, st))
  /\ (~ phaseCorr_precondition src1 src2 window ->
      phaseCorr_asserts src1 src2 window st = AssertFailed).
Proof.
  unfold phaseCorr_precondition, phaseCorr_asserts, same_size, CV_Assert.
  cbv [mbind Run_bind bind mret Run_ret ret].
  destruct (Z.eqb_spec (m_type src1) (m_type src2)) as [Ht|Ht]; [|split; [tauto|reflexivity]].
  destruct (Z.eqb_spec (m_type src1) CV_32FC1) as [H32|H32],
    (Z.eqb_spec (m_type src1) CV_64FC1) as [H64|H64]; cbn [orb];
    try (split; [tauto|reflexivity]);
    (destruct (Z.eqb_spec (m_rows src1) (m_rows src2)) as [Hr|Hr]; cbn [andb];
     [|split; [tauto|reflexivity]];
     destruct (Z.eqb_spec (m_cols src1) (m_cols src2)) as [Hc|Hc];
     [|split; [tauto|reflexivity]];
     destruct (mat_empty window); cbn [negb];
     [split; [reflexivity|intros Hn; exfalso; apply Hn; repeat split; auto; discriminate]|];
     destruct (Z.eqb_spec (m_type src1) (m_type window)) as [Hw|Hw];
     [|split; [intros (_ & _ & _ & Hwin); destruct (Hwin eq_refl); congruence|reflexivity]];
     destruct (Z.eqb_spec (m_rows src1) (m_rows window)) as [Hwr|Hwr]; cbn [andb];
     [|split; [intros (_ & _ & _ & Hwin); destruct (Hwin eq_refl) as (_ & ? & _); congruence
              |reflexivity]];
     destruct (Z.eqb_spec (m_cols src1) (m_cols window)) as [Hwc|Hwc];
     [|split; [intros (_ & _ & _ & Hwin); destruct (Hwin eq_refl) as (_ & _ & ?); congruence
              |reflexivity]];
     split; [reflexivity|intros Hn; exfalso; apply Hn; repeat split; auto]).
Qed.

Lemma bind_AssertFailed {A B} (m : Run A) (k : A -> Run B) st :
  m st = AssertFailed -> (x ← m; k x) st = AssertFailed.
Proof. intros H. cbv [mbind Run_bind bind]. now rewrite H. Qed.

Lemma phaseCorr_asserts_iff src1 src2 window (response : option D) st :
  phaseCorr src1 src2 window response st = AssertFailed
  <-> ~ phaseCorr_precondition src1 src2 window.
Proof.
  destruct (phaseCorr_asserts_spec src1 src2 window st) as [Hok Hfail].
  unfold phaseCorr. split.
  - intros Hrun Hpre. rewrite (bind_Ok _ _ _ _ _ (Hok Hpre)) in Hrun. revert Hrun.
    apply na_bind; [apply na_pad|].
    intros [p1 p2]. apply na_bind; [apply na_surface|]. intros C. apply na_peaks.
  - intros Hn. now apply bind_AssertFailed, Hfail.
Qed.

End PhaseCorrAsserts.

Lemma bind_inv {A B} (m : Run A) (k : A -> Run B) st r :
  (x ← m; k x) st = Ok r -> exists a st1, m st = Ok (a, st1) /\ k a st1 = Ok r.
Proof.
  cbv [mbind Run_bind bind]. destruct (m st) as [[a st1]| | |]; try discriminate.
  eauto.
Qed.

Lemma lift_opt_inv {A} (o : option A) st a st' :
  lift_opt o st = Ok (a, st') -> o = Some a /\ st' = st.
Proof. unfold lift_opt. destruct o; [|discriminate]. now intros [= -> ->]. Qed.

(** Reading a matrix leaves the store as it is. *)
Lemma read_mat_store m st c st' : read_mat m st = Ok (c, st') -> st' = st.
Proof.
  unfold read_mat. destruct (m_data m) as [[b off]|].
  - intros H. apply bind_inv in H as (s & st1 & [= <- <-] & H).
    apply bind_inv in H as (rows & st2 & H1 & [= _ <-]).
    now apply lift_opt_inv in H1 as [_ ->].
  - now intros [= _ <-].
Qed.

Section PhaseCorrResult.
Context {F D : Type} {FO : FloatOps F} {DO : DoubleOps F D} {CV : CvLib F D}.

Lemma call_weightedCentroid_inv C p (r : option D) st t r' st' :
  call_weightedCentroid C p r st = Ok ((t, r'), st') ->
  exists c, read_mat C st = Ok (c, st) /\ st' = st
            /\ t = (weightedCentroid c p (5, 5)).1
            /\ r' = (fun _ => (weightedCentroid c p (5, 5)).2) <$> r.
Proof.
  unfold call_weightedCentroid. intros H.
  apply bind_inv in H as (c & st1 & Hc & H).
  pose proof (read_mat_store _ _ _ _ Hc) as ->.
  destruct (weightedCentroid c p (5, 5)) as [t0 r0] eqn:E. injection H as <- <- <-.
  exists c. rewrite E. cbn [fst snd]. auto.
Qed.

(** What lines 107-126 return, in terms of the surface before ([c1]) and
    after ([c2]) the peak is cleared. *)
Lemma phaseCorr_peaks_inv C padded1 M N (response : option D) st d1 d2 resp st' :
  phaseCorr_peaks C padded1 M N response st = Ok ((d1, d2, resp), st') ->
  exists c1 c2,
    read_mat C st = Ok (c1, st)
    /\ set_at_float_zero C (minMaxLoc c1) st = Ok (tt, st')
    /\ read_mat C st' = Ok (c2, st')
    /\ let center :=
         mkPoint (d_to_float (d_div (d_of_int (m_cols padded1)) (d_of_int 2)))
                 (d_to_float (d_div (d_of_int (m_rows padded1)) (d_of_int 2))) in
       d1 = point_sub center (weightedCentroid c1 (minMaxLoc c1) (5, 5)).1
       /\ d2 = point_sub center (weightedCentroid c2 (minMaxLoc c2) (5, 5)).1
       /\ resp = (fun _ => d_div (weightedCentroid c2 (minMaxLoc c2) (5, 5)).2
                                 (d_of_int (int_mul M N))) <$> response.
Proof.
  unfold phaseCorr_peaks. intros H.
  apply bind_inv in H as (c1 & st1 & Hc1 & H).
  pose proof (read_mat_store _ _ _ _ Hc1) as ->.
  apply bind_inv in H as ([t1 r1] & st2 & Hw1 & H).
  apply call_weightedCentroid_inv in Hw1 as (c1' & Hc1' & -> & -> & ->).
  rewrite Hc1 in Hc1'. injection Hc1' as <-.
  apply bind_inv in H as ([] & st3 & Hz & H).
  apply bind_inv in H as (c2 & st4 & Hc2 & H).
  pose proof (read_mat_store _ _ _ _ Hc2) as ->.
  apply bind_inv in H as ([t2 r2] & st5 & Hw2 & H).
  apply call_weightedCentroid_inv in Hw2 as (c2' & Hc2' & -> & -> & ->).
  rewrite Hc2 in Hc2'. injection Hc2' as <-.
  injection H as <- <- <- <-.
  exists c1, c2. repeat split; try assumption.
  destruct response; reflexivity.
Qed.

Lemma phaseCorr_asserts_inv src1 src2 window st u st' :
  phaseCorr_asserts src1 src2 window st = Ok (u, st') ->
  st' = st /\ phaseCorr_precondition src1 src2 window.
Proof.
  intros H. destruct (phaseCorr_asserts_spec src1 src2 window st) as [_ Hfail].
  assert (phaseCorr_precondition src1 src2 window) as Hpre.
  { unfold phaseCorr_precondition in *.
    destruct (Z.eq_dec (m_type src1) (m_type src2));
      [|rewrite Hfail in H by tauto; discriminate].
    destruct (Z.eq_dec (m_type src1) CV_32FC1), (Z.eq_dec (m_type src1) CV_64FC1),
      (Z.eq_dec (m_rows src1) (m_rows src2)), (Z.eq_dec (m_cols src1) (m_cols src2));
      try (rewrite Hfail in H by tauto; discriminate);
      (destruct (mat_empty window) eqn:Hw;
       [repeat split; auto; discriminate|];
       destruct (Z.eq_dec (m_type window) (m_type src1)),
         (Z.eq_dec (m_rows window) (m_rows src1)),
         (Z.eq_dec (m_cols window) (m_cols src1));
       try (rewrite Hfail in H by tauto; discriminate);
       repeat split; auto). }
  destruct (phaseCorr_asserts_spec src1 src2 window st) as [Hok _].
  rewrite (Hok Hpre) in H. injection H as _ <-. auto.
Qed.

(** A call of [phaseCorr] that returns went through its three stages. *)
Lemma phaseCorr_inv src1 src2 window (response : option D) st d1 d2 resp st' :
  phaseCorr src1 src2 window response st = Ok ((d1, d2, resp), st') ->
  phaseCorr_precondition src1 src2 window
  /\ exists padded1 padded2 C st1 st2,
    phaseCorr_pad src1 src2 window (getOptimalDFTSize (m_rows src1))
                  (getOptimalDFTSize (m_cols src1)) st = Ok ((padded1, padded2), st1)
    /\ phaseCorr_surface padded1 padded2 st1 = Ok (C, st2)
    /\ phaseCorr_peaks C padded1 (getOptimalDFTSize (m_rows src1))
                       (getOptimalDFTSize (m_cols src1)) response st2
       = Ok ((d1, d2, resp), st').
Proof.
  unfold phaseCorr. intros H.
  apply bind_inv in H as (u & st0 & Ha & H).
  apply phaseCorr_asserts_inv in Ha as [-> Hpre].
  apply bind_inv in H as ([p1 p2] & st1 & Hpad & H).
  apply bind_inv in H as (C & st2 & Hs & H).
  split; [exact Hpre|]. exists p1, p2, C, st1, st2. auto.
Qed.

End PhaseCorrResult.

(** ** Lines of text *)

Lemma append_cons c (s t : string) : (String c s ++ t)%string = String c (s ++ t).
Proof. reflexivity. Qed.

Lemma count_newlines_app (s t : string) :
  count_newlines (s ++ t)%string = (count_newlines s + count_newlines t)%nat.
Proof.
  induction s as [|c s IH]; [reflexivity|].
  rewrite append_cons. cbn [count_newlines]. rewrite IH. lia.
Qed.

Lemma string_app_assoc (s t u : string) :
  ((s ++ t) ++ u)%string = (s ++ (t ++ u))%string.
Proof.
  induction s as [|c s IH]; [reflexivity|]. rewrite !append_cons. now rewrite IH.
Qed.

Lemma digits_no_newline (d : Decimal.uint) :
  count_newlines (NilEmpty.string_of_uint d) = 0%nat.
Proof. induction d; cbn; assumption || reflexivity. Qed.

Lemma decimal_no_newline (z : Z) : count_newlines (decimal z) = 0%nat.
Proof.
  unfold decimal, NilZero.string_of_int, NilZero.string_of_uint.
  destruct (Z.to_int z) as [d|d]; destruct d; cbn;
    try reflexivity; apply digits_no_newline.
Qed.

Lemma report_is_line (z : Z) :
  is_line ("Interpolated frame in :" ++ decimal z ++ " milliseconds " ++ newline)%string.
Proof.
  exists ("Interpolated frame in :" ++ decimal z ++ " milliseconds ")%string. split.
  - now rewrite !string_app_assoc.
  - rewrite !count_newlines_app, decimal_no_newline. reflexivity.
Qed.

(** ** medianNeighbor *)

Section MedianOfPushed.
Context {F : Type} {FO : FloatOps F}.

Lemma length_insert_sorted (x : F) (l : list F) :
  length (insert_sorted x l) = Datatypes.S (length l).
Proof.
  induction l as [|y l IH]; [reflexivity|]. cbn [insert_sorted].
  destruct (f_lt x y); cbn [length]; congruence.
Qed.

Lemma length_nth_element (l : list F) : length (nth_element l) = length l.
Proof.
  induction l as [|x l IH]; [reflexivity|].
  unfold nth_element in *. cbn [foldr length].
  rewrite length_insert_sorted. f_equal. exact IH.
Qed.

Lemma middle_is_Some (l : list F) :
  (0 < length l)%nat -> is_Some (nth_element l !! (length l / 2)%nat).
Proof.
  intros Hl. apply lookup_lt_is_Some. rewrite length_nth_element.
  apply Nat.div_lt; lia.
Qed.

(** The element at [size() / 2] exists, whatever was pushed. *)
Lemma medianOfPushed_is_Some (ns : list (Point2 F)) : is_Some (medianOfPushed ns).
Proof.
  unfold medianOfPushed.
  destruct (middle_is_Some (replicate 3 f_zero ++ map px ns)) as [mx Hx].
  { rewrite length_app. cbn. lia. }
  destruct (middle_is_Some (replicate 3 f_zero ++ map py ns)) as [my Hy].
  { rewrite length_app. cbn. lia. }
  rewrite Hx, Hy. cbn. eauto.
Qed.

(** [medianNeighbor] is undefined exactly when one of its reads is. *)
Lemma medianNeighbor_None g rowpos colpos :
  medianNeighbor rowpos colpos g = None <-> selectNeighbors rowpos colpos g = None.
Proof.
  unfold medianNeighbor. destruct (selectNeighbors rowpos colpos g) as [ns|]; cbn.
  - destruct (medianOfPushed_is_Some ns) as [m ->]. split; discriminate.
  - tauto.
Qed.

End MedianOfPushed.

(** C3: at every grid position the predictor reads exactly the three
    neighbours of the documented case table, in its order: right, below,
    below-right at the top-left corner; above, above-right, right on the left
    edge; left, below-left, below on the top edge; above-left, above, left
    elsewhere; and its result is computed from these three. *)
Theorem medianNeighbor_case_table {F : Type} {FO : FloatOps F}
    (prevBlockMV : MotionField F) (rowpos colpos : Z) :
  0 <= rowpos < INT_MAX -> 0 <= colpos < INT_MAX ->
  selectNeighbors rowpos colpos prevBlockMV
  = mapM (fun p => mv_at prevBlockMV p.1 p.2) (case_table rowpos colpos)
  /\ medianNeighbor rowpos colpos prevBlockMV
     = (ns ← mapM (fun p => mv_at prevBlockMV p.1 p.2) (case_table rowpos colpos);
        medianOfPushed ns)
  /\ case_table rowpos colpos
     = match position_class rowpos colpos with
       | TopLeftCorner =>
           [(rowpos, colpos + 1); (rowpos + 1, colpos); (rowpos + 1, colpos + 1)]
       | LeftEdge =>
           [(rowpos - 1, colpos); (rowpos - 1, colpos + 1); (rowpos, colpos + 1)]
       | TopEdge =>
           [(rowpos, colpos - 1); (rowpos + 1, colpos - 1); (rowpos + 1, colpos)]
       | Interior =>
           [(rowpos - 1, colpos - 1); (rowpos - 1, colpos); (rowpos, colpos - 1)]
       end.
Proof.
  intros Hr Hc. split; [|split].
  - now apply selectNeighbors_case_table.
  - unfold medianNeighbor. now rewrite selectNeighbors_case_table.
  - unfold case_table. now destruct (position_class rowpos colpos).
Qed.

Lemma medianNeighbor_case_table_witness :
  (0 <= 1 < INT_MAX) /\ (0 <= 0 < INT_MAX)
  /\ selectNeighbors 1 0 Examples.grid22
     = mapM (fun p => mv_at Examples.grid22 p.1 p.2) (case_table 1 0)
  /\ selectNeighbors 1 0 Examples.grid22
     = Some [Examples.P 0 0; Examples.P 2 2; Examples.P 9 9].
Proof.
  assert (0 <= 1 < INT_MAX) as Hr by (unfold INT_MAX; lia).
  assert (0 <= 0 < INT_MAX) as Hc by (unfold INT_MAX; lia).
  split; [exact Hr|]. split; [exact Hc|]. split.
  - exact (proj1 (medianNeighbor_case_table Examples.grid22 1 0 Hr Hc)).
  - reflexivity.
Defined.

(** C9, as amended: on a grid of [R] rows and [C] columns a call at a grid
    position reads outside the grid exactly when the position is in the top
    row and that row is the last one, or in the left column and that column
    is the last one; so every position of the grid is read in bounds exactly
    when the grid has at least 2 rows and 2 columns. *)
Theorem medianNeighbor_reads_in_bounds {F : Type} {FO : FloatOps F}
    (prevBlockMV : MotionField F) (R C : Z) :
  rectangular prevBlockMV R C -> 1 <= R <= INT_MAX -> 1 <= C <= INT_MAX ->
  (forall rowpos colpos, 0 <= rowpos < R -> 0 <= colpos < C ->
     medianNeighbor rowpos colpos prevBlockMV = None
     <-> (rowpos = 0 /\ rowpos = R - 1) \/ (colpos = 0 /\ colpos = C - 1))
  /\ ((forall rowpos colpos, 0 <= rowpos < R -> 0 <= colpos < C ->
         is_Some (medianNeighbor rowpos colpos prevBlockMV))
      <-> 2 <= R /\ 2 <= C).
Proof.
  intros Hg HR HC.
  assert (forall rowpos colpos, 0 <= rowpos < R -> 0 <= colpos < C ->
            medianNeighbor rowpos colpos prevBlockMV = None
            <-> (rowpos = 0 /\ rowpos = R - 1) \/ (colpos = 0 /\ colpos = C - 1)) as Hnone.
  { intros rowpos colpos Hr Hc. rewrite medianNeighbor_None, eq_None_not_Some.
    rewrite (selectNeighbors_in_bounds prevBlockMV R C rowpos colpos Hg) by lia.
    lia. }
  split; [exact Hnone|]. split.
  - intros Hall.
    pose proof (Hall 0 0 ltac:(lia) ltac:(lia)) as H0.
    apply not_eq_None_Some in H0. rewrite Hnone in H0 by lia. lia.
  - intros [H2R H2C] rowpos colpos Hr Hc.
    apply not_eq_None_Some. rewrite Hnone by lia. lia.
Qed.

Lemma medianNeighbor_reads_in_bounds_witness :
  rectangular Examples.grid22 2 2 /\ (1 <= 2 <= INT_MAX)
  /\ (forall rowpos colpos, 0 <= rowpos < 2 -> 0 <= colpos < 2 ->
        is_Some (medianNeighbor rowpos colpos Examples.grid22)).
Proof.
  assert (rectangular Examples.grid22 2 2) as Hg.
  { split; [reflexivity|]. repeat constructor. }
  assert (1 <= 2 <= INT_MAX) as H2 by (unfold INT_MAX; lia).
  split; [exact Hg|]. split; [exact H2|].
  apply (proj2 (medianNeighbor_reads_in_bounds Examples.grid22 2 2 Hg H2 H2)). lia.
Defined.

(** C9, as stated, fails: position (1, 0) of a 2 by 2 grid is on the left
    edge and in the last row, and its three reads are inside the grid. *)
Lemma medianNeighbor_left_edge_last_row :
  rectangular Examples.grid22 2 2
  /\ position_class 1 0 = LeftEdge
  /\ 1 = 2 - 1
  /\ selectNeighbors 1 0 Examples.grid22
     = Some [Examples.P 0 0; Examples.P 2 2; Examples.P 9 9]
  /\ is_Some (medianNeighbor 1 0 Examples.grid22).
Proof.
  split; [split; [reflexivity|repeat constructor]|].
  split; [reflexivity|]. split; [reflexivity|]. split; [reflexivity|].
  vm_compute. eauto.
Qed.

(** C1 fails on the code: with the neighbours (0,0), (2,2), (4,4), in any
    order, the element [medianNeighbor] returns is (0,0) and not their
    per-coordinate median (2,2); position (1,1) of the example field is such
    a position. *)
Theorem medianNeighbor_zeros_pushed_first :
  selectNeighbors 1 1 Examples.grid22
  = Some [Examples.P 0 0; Examples.P 2 2; Examples.P 4 4]
  /\ medianNeighbor 1 1 Examples.grid22 = Some (Examples.P 0 0)
  /\ Forall (fun ns => medianOfPushed ns = Some (Examples.P 0 0)
                       /\ per_coordinate_median ns = Some (Examples.P 2 2))
            (permutations [Examples.P 0 0; Examples.P 2 2; Examples.P 4 4]).
Proof.
  split; [reflexivity|]. split; [reflexivity|].
  vm_compute permutations. repeat constructor.
Qed.

(** ** calcSAD *)


Lemma example_mats_valid :
  mat_valid Examples.dim_block_store Examples.block11
  /\ mat_valid Examples.dim_block_store Examples.frame11.
Proof.
  split.
  - exists 1%positive, 0, (Ref.float_bytes 1).
    repeat split; try reflexivity; cbn; lia.
  - exists 2%positive, 0, (Ref.float_bytes 100).
    repeat split; try reflexivity; cbn; lia.
Qed.


(** Exact integer addition preserves the order. *)
Lemma exactZ_monotone : @MonotoneAdd Z exactZ.
Proof.
  split; unfold f_le; cbn.
  - intros x. apply Z.ltb_irrefl.
  - intros a b c d Hab Hcd. apply Z.ltb_ge in Hab, Hcd. apply Z.ltb_ge. lia.
Qed.


Lemma int_mats_valid :
  mat_valid Examples.int_store Examples.block11
  /\ mat_valid Examples.int_store Examples.frame11.
Proof.
  split.
  - exists 1%positive, 0, (le_bytes 4 1). repeat split; try reflexivity; cbn; lia.
  - exists 2%positive, 0, (le_bytes 4 1). repeat split; try reflexivity; cbn; lia.
Qed.



(** ** phaseCorr *)

(** C7: [phaseCorr] ends in a failed assertion exactly when its contract is
    violated: for patches of identical dimensions and type (CV_32FC1 or
    CV_64FC1) and a window, when one is supplied, of those dimensions and
    that type, no assertion fails; any violation ends the call in the failed
    assertion, whatever the store and the library routines. *)
Theorem phaseCorr_asserts_its_contract {F D : Type} {FO : FloatOps F}
    {DO : DoubleOps F D} {CV : CvLib F D}
    (src1 src2 window : Mat) (response : option D) (st : store) :
  phaseCorr src1 src2 window response st = AssertFailed
  <-> ~ phaseCorr_precondition src1 src2 window.
Proof. apply phaseCorr_asserts_iff. Qed.




(** ** Effects on the frame buffers *)

Lemma ps_ret {A} (a : A) : preserves_store (mret a).
Proof. intros st a' st' [= _ <-]. reflexivity. Qed.

Lemma ps_bind {A B} (m : Run A) (k : A -> Run B) :
  preserves_store m -> (forall a, preserves_store (k a)) ->
  preserves_store (x ← m; k x).
Proof.
  intros Hm Hk st b st' H. apply bind_inv in H as (a & st1 & H1 & H2).
  apply Hm in H1 as ->. now apply Hk in H2.
Qed.

Lemma ps_CV_Assert c : preserves_store (CV_Assert c).
Proof. intros st a st'. unfold CV_Assert. destruct c; [|discriminate]. now intros [= _ <-]. Qed.

Lemma ps_for_loop {S} (body : Z -> S -> Run S) :
  (forall i s, preserves_store (body i s)) ->
  forall n i s, preserves_store (for_loop n i body s).
Proof.
  intros Hb. induction n as [|n IH]; intros i s; cbn [for_loop].
  - apply ps_ret.
  - apply ps_bind; [apply Hb|]. intros s'. apply IH.
Qed.

Lemma na_CV_Assert_true : never_asserts (CV_Assert true).
Proof. intros st. discriminate. Qed.

Section CalcSADEffects.
Context {F : Type} {FO : FloatOps F}.
Variable BLOCK_SIZE : Z.

Lemma ps_at_float m i j : preserves_store (at_float (F := F) m i j).
Proof.
  unfold at_float. intros st a st' H.
  apply bind_inv in H as (s & st1 & [= <- <-] & H).
  apply bind_inv in H as (bs & st2 & H1 & [= _ <-]).
  now apply lift_opt_inv in H1 as [_ ->].
Qed.

Lemma na_at_float m i j : never_asserts (at_float (F := F) m i j).
Proof.
  unfold at_float. apply na_bind; [apply na_get_store|]. intros st.
  apply na_bind; [apply na_lift_opt|]. intros bs. apply na_ret.
Qed.

(** [calcSAD] only reads: a call that returns leaves every buffer as it was. *)
Lemma calcSAD_preserves_store prevBlock rowpos colpos curr (dx dy : F) :
  preserves_store (calcSAD BLOCK_SIZE prevBlock rowpos colpos curr dx dy).
Proof.
  unfold calcSAD, for_int.
  apply ps_bind; [apply ps_CV_Assert|]. intros _.
  apply ps_bind; [apply ps_CV_Assert|]. intros _.
  apply ps_for_loop. intros i SAD. apply ps_for_loop. intros j SAD'.
  destruct (_ || _); repeat (apply ps_bind; [apply ps_at_float|intros ?]); apply ps_ret.
Qed.

(** The assertions of [calcSAD] pass for CV_32FC1 and for CV_64FC1 frames. *)
Lemma calcSAD_admits_both_types prevBlock rowpos colpos curr (dx dy : F) st :
  m_type prevBlock = m_type curr ->
  m_type prevBlock = CV_32FC1 \/ m_type prevBlock = CV_64FC1 ->
  calcSAD BLOCK_SIZE prevBlock rowpos colpos curr dx dy st <> AssertFailed.
Proof.
  intros Ht Hf. unfold calcSAD, for_int. rewrite <- Ht, Z.eqb_refl.
  replace ((m_type prevBlock =? CV_32FC1) || (m_type prevBlock =? CV_64FC1)) with true
    by (destruct Hf as [-> | ->]; reflexivity).
  revert st.
  apply na_bind; [apply na_CV_Assert_true|]. intros _.
  apply na_bind; [apply na_CV_Assert_true|]. intros _.
  apply na_for_loop. intros i SAD. apply na_for_loop. intros j SAD'.
  destruct (_ || _); repeat (apply na_bind; [apply na_at_float|intros ?]); apply na_ret.
Qed.

End CalcSADEffects.

Section PadInPlace.
Context {F D : Type} {CV : CvLib F D}.

(** With a window, on patches whose size is already the optimal one,
    lines 78-90 multiply the window into the callers' own matrices: the
    output argument of each [multiply] is the header of an input patch. *)
Lemma phaseCorr_pad_multiplies_in_place src1 src2 window :
  mat_empty window = false ->
  phaseCorr_pad src1 src2 window (m_rows src1) (m_cols src1)
  = (padded1 ← apply2 cv_multiply window src1 src1;
     padded2 ← apply2 cv_multiply window src2 src2;
     mret (padded1, padded2)).
Proof.
  intros Hw. unfold phaseCorr_pad. rewrite !Z.eqb_refl. cbn [negb orb].
  cbv [mbind Run_bind bind mret Run_ret ret]. now rewrite Hw.
Qed.

(** A result of the size and type of a non-empty output argument is
    written over the argument's rows. *)
Lemma output_to_in_place dst d :
  mat_empty dst = false ->
  m_rows dst = d_rows d -> m_cols dst = d_cols d -> m_type dst = d_type d ->
  output_to dst d = (write_rows dst d;; mret dst).
Proof.
  intros He Hr Hc Ht. unfold output_to. now rewrite He, Hr, Hc, Ht, !Z.eqb_refl.
Qed.

End PadInPlace.


(** ** Buffers a call leaves alone *)

Lemma keeps_preserves b {A} (m : Run A) : preserves_store m -> keeps b m.
Proof. intros Hm st a st' _ H. now rewrite (Hm _ _ _ H). Qed.

Lemma keeps_bind b {A B} (m : Run A) (k : A -> Run B) :
  keeps b m -> (forall a, keeps b (k a)) -> keeps b (x ← m; k x).
Proof.
  intros Hm Hk st r st' Hb H. apply bind_inv in H as (a & st1 & H1 & H2).
  pose proof (Hm _ _ _ Hb H1) as E1.
  rewrite <- E1. eapply Hk; [|exact H2]. now rewrite E1.
Qed.

Lemma keeps_for_loop b {S} (body : Z -> S -> Run S) :
  (forall i s, keeps b (body i s)) ->
  forall n i s, keeps b (for_loop n i body s).
Proof.
  intros Hb. induction n as [|n IH]; intros i s; cbn [for_loop].
  - apply keeps_preserves, ps_ret.
  - apply keeps_bind; [apply Hb|]. intros s'. apply IH.
Qed.

Lemma ps_read_mat m : preserves_store (read_mat m).
Proof. intros st c st' H. now apply read_mat_store in H. Qed.

Lemma store_bytes_other st b' addr bs st' b :
  store_bytes st b' addr bs = Some st' -> b' <> b -> st' !! b = st !! b.
Proof.
  unfold store_bytes. destruct (st !! b') as [buf|]; [|discriminate]. cbn.
  destruct (_ && _); [|discriminate]. intros [= <-] Hne.
  now apply lookup_insert_ne.
Qed.

Lemma keeps_write_rows b m d : avoids b m -> keeps b (write_rows m d).
Proof.
  intros Ha. unfold write_rows, for_int.
  destruct (m_data m) as [[b' off]|] eqn:Hd; [|apply keeps_preserves, ps_ret].
  apply keeps_for_loop. intros i [] st a st' Hb H.
  apply bind_inv in H as (s & st1 & [= <- <-] & H).
  apply bind_inv in H as (s' & st2 & H1 & [= _ <-]).
  apply lift_opt_inv in H1 as [H1 ->].
  eapply store_bytes_other; [exact H1|]. now apply (Ha b' off).
Qed.

Lemma keeps_new_mat b d : keeps b (new_mat d).
Proof.
  intros st m st' Hb [= _ <-]. apply lookup_insert_ne.
  intros E. apply (is_fresh (dom st)). rewrite E. now apply elem_of_dom.
Qed.

Lemma keeps_output_to b dst d : avoids b dst -> keeps b (output_to dst d).
Proof.
  intros Ha. unfold output_to. destruct (_ && _).
  - apply keeps_bind; [now apply keeps_write_rows|]. intros _.
    apply keeps_preserves, ps_ret.
  - apply keeps_new_mat.
Qed.

(** The matrix an operation delivers does not point into an existing
    buffer that its output argument does not point into. *)
Lemma output_to_avoids b dst d st m st' :
  avoids b dst -> is_Some (st !! b) -> output_to dst d st = Ok (m, st') -> avoids b m.
Proof.
  intros Ha Hb. unfold output_to. destruct (_ && _).
  - intros H. apply bind_inv in H as (u & st1 & _ & [= <- _]). exact Ha.
  - intros [= <- _] b' off [= <- _] E.
    apply (is_fresh (dom st)). rewrite E. now apply elem_of_dom.
Qed.

Lemma avoids_default b : avoids b Mat_default.
Proof. intros b' off. discriminate. Qed.

Lemma keeps_apply1 b f src dst : avoids b dst -> keeps b (apply1 f src dst).
Proof.
  intros Ha. unfold apply1. apply keeps_bind; [apply keeps_preserves, ps_read_mat|].
  intros a. now apply keeps_output_to.
Qed.

Lemma keeps_apply2 b f src1 src2 dst : avoids b dst -> keeps b (apply2 f src1 src2 dst).
Proof.
  intros Ha. unfold apply2. apply keeps_bind; [apply keeps_preserves, ps_read_mat|].
  intros a. apply keeps_bind; [apply keeps_preserves, ps_read_mat|].
  intros c. now apply keeps_output_to.
Qed.

Lemma apply1_avoids b f src dst st m st' :
  avoids b dst -> is_Some (st !! b) -> apply1 f src dst st = Ok (m, st') -> avoids b m.
Proof.
  intros Ha Hb H. unfold apply1 in H. apply bind_inv in H as (a & st1 & H1 & H2).
  apply read_mat_store in H1 as ->. eapply output_to_avoids; eauto.
Qed.

Lemma apply2_avoids b f src1 src2 dst st m st' :
  avoids b dst -> is_Some (st !! b) -> apply2 f src1 src2 dst st = Ok (m, st') ->
  avoids b m.
Proof.
  intros Ha Hb H. unfold apply2 in H. apply bind_inv in H as (a & st1 & H1 & H).
  apply read_mat_store in H1 as ->.
  apply bind_inv in H as (c & st2 & H2 & H). apply read_mat_store in H2 as ->.
  eapply output_to_avoids; eauto.
Qed.

Lemma keeps_set_at_float_zero b C pt : avoids b C -> keeps b (set_at_float_zero C pt).
Proof.
  intros Ha st a st' Hb H. unfold set_at_float_zero in H.
  apply bind_inv in H as (s & st1 & [= <- <-] & H).
  apply bind_inv in H as ([b' addr] & st2 & H1 & H).
  apply lift_opt_inv in H1 as [H1 ->].
  apply bind_inv in H as (s' & st3 & H2 & [= _ <-]).
  apply lift_opt_inv in H2 as [H2 ->].
  eapply store_bytes_other; [exact H2|].
  unfold at_addr in H1. destruct (m_data C) as [[b0 off]|] eqn:Hd; [|discriminate].
  injection H1 as <- _. now apply (Ha b0 off).
Qed.

Lemma grows_preserves {A} (m : Run A) : preserves_store m -> grows m.
Proof. intros Hm st a st' b H. now rewrite (Hm _ _ _ H). Qed.

Lemma grows_bind {A B} (m : Run A) (k : A -> Run B) :
  grows m -> (forall a, grows (k a)) -> grows (x ← m; k x).
Proof.
  intros Hm Hk st r st' b H Hb. apply bind_inv in H as (a & st1 & H1 & H2).
  eapply Hk; [exact H2|]. eapply Hm; eauto.
Qed.

Lemma grows_for_loop {S} (body : Z -> S -> Run S) :
  (forall i s, grows (body i s)) -> forall n i s, grows (for_loop n i body s).
Proof.
  intros Hb. induction n as [|n IH]; intros i s; cbn [for_loop].
  - apply grows_preserves, ps_ret.
  - apply grows_bind; [apply Hb|]. intros s'. apply IH.
Qed.

Lemma store_bytes_grows st b' addr bs st' b :
  store_bytes st b' addr bs = Some st' -> is_Some (st !! b) -> is_Some (st' !! b).
Proof.
  unfold store_bytes. destruct (st !! b') as [buf|]; [|discriminate]. cbn.
  destruct (_ && _); [|discriminate]. intros [= <-] Hb.
  rewrite lookup_insert. destruct (decide (b' = b)); [eauto|exact Hb].
Qed.

Lemma grows_write_rows m d : grows (write_rows m d).
Proof.
  unfold write_rows, for_int.
  destruct (m_data m) as [[b' off]|]; [|apply grows_preserves, ps_ret].
  apply grows_for_loop. intros i [] st a st' b H Hb.
  apply bind_inv in H as (s & st1 & [= <- <-] & H).
  apply bind_inv in H as (s' & st2 & H1 & [= _ <-]).
  apply lift_opt_inv in H1 as [H1 ->].
  eapply store_bytes_grows; eauto.
Qed.

Lemma grows_new_mat d : grows (new_mat d).
Proof.
  intros st m st' b [= _ <-] Hb. rewrite lookup_insert.
  destruct (decide (fresh (dom st) = b)); [eauto|exact Hb].
Qed.

Lemma grows_output_to dst d : grows (output_to dst d).
Proof.
  unfold output_to. destruct (_ && _); [|apply grows_new_mat].
  apply grows_bind; [apply grows_write_rows|]. intros _. apply grows_preserves, ps_ret.
Qed.

Lemma grows_apply2 f src1 src2 dst : grows (apply2 f src1 src2 dst).
Proof.
  unfold apply2. apply grows_bind; [apply grows_preserves, ps_read_mat|]. intros a.
  apply grows_bind; [apply grows_preserves, ps_read_mat|]. intros c.
  apply grows_output_to.
Qed.

(** The contents read from a matrix have its size and type. *)
Lemma read_mat_shape m st c st' :
  read_mat m st = Ok (c, st') ->
  d_rows c = m_rows m /\ d_cols c = m_cols m /\ d_type c = m_type m.
Proof.
  unfold read_mat. destruct (m_data m) as [[b off]|].
  - intros H. apply bind_inv in H as (s & st1 & _ & H).
    apply bind_inv in H as (rows & st2 & _ & [= <- _]). auto.
  - intros [= <- _]. auto.
Qed.

(** ** Reading back what was written *)

Lemma splice_length {A} (buf bs : list A) (a : nat) :
  (a + length bs <= length buf)%nat ->
  length (take a buf ++ bs ++ drop (a + length bs) buf) = length buf.
Proof. intros H. rewrite !length_app, length_take_le, length_drop by lia. lia. Qed.

Lemma splice_lookup_other {A} (buf bs : list A) (a i : nat) :
  (a + length bs <= length buf)%nat ->
  (i < a \/ a + length bs <= i)%nat ->
  (take a buf ++ bs ++ drop (a + length bs) buf) !! i = buf !! i.
Proof.
  intros Hlen [Hi|Hi].
  - rewrite lookup_app_l by (rewrite length_take_le; lia).
    now apply lookup_take_lt.
  - rewrite lookup_app_r by (rewrite length_take_le; lia).
    rewrite length_take_le by lia.
    rewrite lookup_app_r by lia.
    rewrite lookup_drop. f_equal. lia.
Qed.

Lemma splice_segment {A} (buf bs : list A) (a : nat) :
  (a + length bs <= length buf)%nat ->
  take (length bs) (drop a (take a buf ++ bs ++ drop (a + length bs) buf)) = bs.
Proof.
  intros H. rewrite drop_app_length' by (rewrite length_take_le; lia).
  apply take_app_length.
Qed.

Lemma segment_ext {A} (l1 l2 : list A) (a n : nat) :
  (forall i, (a <= i < a + n)%nat -> l1 !! i = l2 !! i) ->
  take n (drop a l1) = take n (drop a l2).
Proof.
  intros H. apply list_eq. intros i.
  destruct (decide (i < n)%nat) as [Hi|Hi].
  - rewrite !lookup_take_lt, !lookup_drop by exact Hi. apply H. lia.
  - rewrite !lookup_take_ge by lia. reflexivity.
Qed.

(** A load of the bytes just stored. *)
Lemma load_store_same st b addr bs st' :
  store_bytes st b addr bs = Some st' ->
  load st' b addr (Z.of_nat (length bs)) = Some bs.
Proof.
  unfold store_bytes, load. destruct (st !! b) as [buf|]; [|discriminate]. cbn.
  destruct (Z.leb_spec 0 addr) as [Ha|]; [|discriminate].
  destruct (Z.leb_spec (addr + Z.of_nat (length bs)) (Z.of_nat (length buf))) as [Hl|];
    [|discriminate].
  cbn. intros [= <-]. rewrite lookup_insert_eq. cbn.
  assert (Z.to_nat addr + length bs <= length buf)%nat as Hn by lia.
  rewrite (splice_length buf bs _ Hn).
  destruct (Z.leb_spec 0 addr); [|lia].
  destruct (Z.leb_spec 0 (Z.of_nat (length bs))); [|lia].
  destruct (Z.leb_spec (addr + Z.of_nat (length bs)) (Z.of_nat (length buf))); [|lia].
  cbn. rewrite Nat2Z.id. f_equal. now apply splice_segment.
Qed.

(** A load of bytes apart from the ones just stored. *)
Lemma load_store_apart st b addr bs st' addr2 n :
  store_bytes st b addr bs = Some st' ->
  addr2 + n <= addr \/ addr + Z.of_nat (length bs) <= addr2 ->
  load st' b addr2 n = load st b addr2 n.
Proof.
  unfold store_bytes, load. destruct (st !! b) as [buf|]; [|discriminate]. cbn.
  destruct (Z.leb_spec 0 addr) as [Ha|]; [|discriminate].
  destruct (Z.leb_spec (addr + Z.of_nat (length bs)) (Z.of_nat (length buf))) as [Hl|];
    [|discriminate].
  cbn. intros [= <-] Hap. rewrite lookup_insert_eq. cbn.
  assert (Z.to_nat addr + length bs <= length buf)%nat as Hn by lia.
  rewrite (splice_length buf bs _ Hn).
  destruct (Z.leb_spec 0 addr2) as [Ha2|]; [|reflexivity].
  destruct (Z.leb_spec 0 n) as [Hn0|]; [|reflexivity].
  destruct (Z.leb_spec (addr2 + n) (Z.of_nat (length buf))); [|reflexivity].
  cbn. f_equal. apply segment_ext. intros i Hi.
  apply splice_lookup_other; [exact Hn|]. lia.
Qed.

Lemma load_other_buffer st st' b addr n :
  st' !! b = st !! b -> load st' b addr n = load st b addr n.
Proof. intros H. unfold load. now rewrite H. Qed.

Lemma length_dense_row d i :
  dense_wf d -> 0 <= i < d_rows d ->
  length (dense_row d i) = Z.to_nat (d_cols d * elemSize (d_type d)).
Proof.
  intros Hwf Hi. unfold dense_row. rewrite length_take_le; [reflexivity|].
  rewrite length_drop, Hwf.
  assert (Z.to_nat i + 1 <= Z.to_nat (d_rows d))%nat by lia. nia.
Qed.

Lemma concat_rows {A} (l : list A) (w : nat) :
  forall n, concat (map (fun i => take w (drop (i * w) l)) (seq 0 n)) = take (n * w) l.
Proof.
  induction n as [|n IH]; [reflexivity|].
  rewrite seq_S, map_app, concat_app, IH. cbn [map concat plus].
  rewrite app_nil_r.
  replace (Datatypes.S n * w)%nat with (n * w + w)%nat by lia.
  now rewrite take_take_drop.
Qed.

Lemma concat_dense_rows d :
  dense_wf d -> concat (map (dense_row d) (seqZ 0 (d_rows d))) = d_bytes d.
Proof.
  intros Hwf. unfold seqZ.
  change (map (dense_row d) ?l) with (dense_row d <$> l).
  rewrite <- list_fmap_compose.
  rewrite (list_fmap_ext _ (fun i => take (Z.to_nat (d_cols d * elemSize (d_type d)))
                                       (drop (i * Z.to_nat (d_cols d * elemSize (d_type d)))
                                             (d_bytes d)))).
  - change (?f <$> ?l) with (map f l). rewrite concat_rows, <- Hwf. apply firstn_all.
  - intros i x _. unfold compose, dense_row. do 3 f_equal. lia.
Qed.

Section WriteRows.
Variables (m : Mat) (d : Dense) (b : positive) (off : Z).
Hypothesis data : m_data m = Some (b, off).
Hypothesis shape : d_rows d = m_rows m /\ d_cols d = m_cols m /\ d_type d = m_type m.
Hypothesis wf : dense_wf d.
Hypothesis step : 0 <= m_cols m * elemSize (m_type m) <= m_step m.

Let width := m_cols m * elemSize (m_type m).

Lemma row_length i : 0 <= i < m_rows m -> Z.of_nat (length (dense_row d i)) = width.
Proof.
  intros Hi. destruct shape as (Hr & Hc & Ht).
  rewrite length_dense_row by (try assumption; lia).
  unfold width. rewrite Hc, Ht. lia.
Qed.

(** After rows [i0 .. i0 + n - 1] are written they read back, and the rows
    above them are as before. *)
Lemma write_loop_reads n :
  forall i0 st st', 0 <= i0 -> i0 + Z.of_nat n <= m_rows m ->
    for_loop n i0
      (fun i (_ : unit) =>
         st ← get_store;
         st' ← lift_opt (store_bytes st b (off + i * m_step m) (dense_row d i));
         put_store st') tt st = Ok (tt, st') ->
    (forall i, i0 <= i < i0 + Z.of_nat n ->
       load st' b (off + i * m_step m) width = Some (dense_row d i))
    /\ (forall i, 0 <= i < i0 ->
          load st' b (off + i * m_step m) width = load st b (off + i * m_step m) width).
Proof.
  induction n as [|n IH]; intros i0 st st' Hi0 Hn H.
  - injection H as <-. split; [intros; lia|reflexivity].
  - cbn [for_loop] in H. apply bind_inv in H as ([] & s1 & Hbody & H).
    apply bind_inv in Hbody as (s & t1 & [= <- <-] & Hbody).
    apply bind_inv in Hbody as (s1' & t2 & Hst & [= <-]).
    apply lift_opt_inv in Hst as [Hst ->].
    destruct (IH (i0 + 1) s1' st' ltac:(lia) ltac:(lia) H) as [IH1 IH2].
    assert (Z.of_nat (length (dense_row d i0)) = width) as Hlen
      by (apply row_length; lia).
    assert (0 <= m_step m) as Hstep by (unfold width in *; lia).
    split.
    + intros i Hi. destruct (Z.eq_dec i i0) as [->|Hne].
      * rewrite IH2 by lia. rewrite <- Hlen. now apply (load_store_same st).
      * apply IH1. lia.
    + intros i Hi. rewrite IH2 by lia.
      eapply load_store_apart; [exact Hst|]. left. unfold width in *. nia.
Qed.

(** The rows written over a matrix are its contents afterwards. *)
Lemma write_rows_read_mat st st' :
  write_rows m d st = Ok (tt, st') -> read_mat m st' = Ok (d, st').
Proof.
  intros H. unfold write_rows in H. rewrite data in H. unfold for_int in H.
  destruct shape as (Hr & Hc & Ht).
  destruct (Z.le_gt_cases 0 (m_rows m)) as [Hrows|Hrows].
  - apply write_loop_reads in H as [Hread _]; [|lia|lia].
    unfold read_mat. rewrite data.
    cbv [mbind Run_bind bind get_store].
    rewrite (mapM_total _ (dense_row d)).
    + cbn. rewrite <- Hr, concat_dense_rows by exact wf.
      rewrite <- Hc, <- Ht. now destruct d.
    + intros i Hi. apply elem_of_seqZ in Hi. apply Hread. lia.
  - replace (Z.to_nat (m_rows m)) with 0%nat in H by lia. injection H as <-.
    unfold read_mat. rewrite data. cbv [mbind Run_bind bind get_store].
    unfold seqZ. replace (Z.to_nat (m_rows m)) with 0%nat by lia. cbn.
    destruct d as [r c t bs]. cbn in *. subst.
    unfold dense_wf in wf. cbn in wf.
    replace (Z.to_nat (m_rows m)) with 0%nat in wf by lia.
    destruct bs; [reflexivity|discriminate].
Qed.

End WriteRows.

(** The contents of a matrix depend on its buffer only. *)
Lemma read_mat_same_buffer m b off st st' :
  m_data m = Some (b, off) -> st' !! b = st !! b ->
  value_of (read_mat m st') = value_of (read_mat m st).
Proof.
  intros Hd Hb. unfold read_mat. rewrite Hd.
  cbv [mbind Run_bind bind get_store].
  erewrite (mapM_ext _ (fun i => load st b (off + i * m_step m)
                                   (m_cols m * elemSize (m_type m)))).
  - destruct (mapM _ _); reflexivity.
  - intros i. now apply load_other_buffer.
Qed.

Section PhaseCorrFrame.
Context {F D : Type} {FO : FloatOps F} {DO : DoubleOps F D} {CV : CvLib F D}.

(** The surface is computed in new buffers. *)
Lemma phaseCorr_surface_frame b padded1 padded2 st C st' :
  is_Some (st !! b) -> phaseCorr_surface padded1 padded2 st = Ok (C, st') ->
  st' !! b = st !! b /\ avoids b C.
Proof.
  intros Hb H. unfold phaseCorr_surface in H.
  apply bind_inv in H as (FFT1 & s1 & H1 & H).
  pose proof (keeps_apply1 b _ _ _ (avoids_default b) _ _ _ Hb H1) as E1.
  assert (is_Some (s1 !! b)) as Hb1 by now rewrite E1.
  apply bind_inv in H as (FFT2 & s2 & H2 & H).
  pose proof (keeps_apply1 b _ _ _ (avoids_default b) _ _ _ Hb1 H2) as E2.
  assert (is_Some (s2 !! b)) as Hb2 by now rewrite E2.
  apply bind_inv in H as (P & s3 & H3 & H).
  pose proof (keeps_apply2 b _ _ _ _ (avoids_default b) _ _ _ Hb2 H3) as E3.
  assert (is_Some (s3 !! b)) as Hb3 by now rewrite E3.
  apply bind_inv in H as (Pm & s4 & H4 & H).
  pose proof (keeps_apply1 b _ _ _ (avoids_default b) _ _ _ Hb3 H4) as E4.
  assert (is_Some (s4 !! b)) as Hb4 by now rewrite E4.
  apply bind_inv in H as (C0 & s5 & H5 & H).
  pose proof (keeps_apply2 b _ _ _ _ (avoids_default b) _ _ _ Hb4 H5) as E5.
  pose proof (apply2_avoids b _ _ _ _ _ _ _ (avoids_default b) Hb4 H5) as A5.
  assert (is_Some (s5 !! b)) as Hb5 by now rewrite E5.
  apply bind_inv in H as (C1 & s6 & H6 & H).
  pose proof (keeps_apply1 b _ _ _ A5 _ _ _ Hb5 H6) as E6.
  pose proof (apply1_avoids b _ _ _ _ _ _ A5 Hb5 H6) as A6.
  assert (is_Some (s6 !! b)) as Hb6 by now rewrite E6.
  pose proof (keeps_apply1 b _ _ _ A6 _ _ _ Hb6 H) as E7.
  pose proof (apply1_avoids b _ _ _ _ _ _ A6 Hb6 H) as A7.
  split; [congruence|exact A7].
Qed.

Lemma ps_call_weightedCentroid C p (r : option D) :
  preserves_store (call_weightedCentroid C p r).
Proof.
  unfold call_weightedCentroid. apply ps_bind; [apply ps_read_mat|]. intros c.
  destruct (weightedCentroid c p (5, 5)). apply ps_ret.
Qed.

(** Clearing the peak writes into the surface only. *)
Lemma phaseCorr_peaks_keeps b C padded1 M N (r : option D) :
  avoids b C -> keeps b (phaseCorr_peaks C padded1 M N r).
Proof.
  intros Ha. unfold phaseCorr_peaks.
  apply keeps_bind; [apply keeps_preserves, ps_read_mat|]. intros c.
  apply keeps_bind; [apply keeps_preserves, ps_call_weightedCentroid|]. intros [t1 r1].
  apply keeps_bind; [now apply keeps_set_at_float_zero|]. intros _.
  apply keeps_bind; [apply keeps_preserves, ps_read_mat|]. intros c'.
  apply keeps_bind; [apply keeps_preserves, ps_call_weightedCentroid|]. intros [t2 r2].
  apply keeps_preserves, ps_ret.
Qed.

(** With a window, on patches whose size is already the optimal one,
    [phaseCorr] writes the product of the window and [src1] over the rows of
    [src1], and the buffer of [src1] is at the return what that write left
    (for a [multiply] whose result has the size and type of its input, and a
    [src2] in another buffer). *)
Lemma phaseCorr_writes_src1 src1 src2 window (response : option D) st r st' b1 off1 :
  phaseCorr src1 src2 window response st = Ok (r, st') ->
  mat_empty window = false ->
  getOptimalDFTSize (m_rows src1) = m_rows src1 ->
  getOptimalDFTSize (m_cols src1) = m_cols src1 ->
  m_data src1 = Some (b1, off1) -> is_Some (st !! b1) -> avoids b1 src2 ->
  (forall w a,
      read_mat window st = Ok (w, st) -> read_mat src1 st = Ok (a, st) ->
      d_rows (cv_multiply w a) = d_rows a
      /\ d_cols (cv_multiply w a) = d_cols a
      /\ d_type (cv_multiply w a) = d_type a) ->
  exists w a st1,
    read_mat window st = Ok (w, st)
    /\ read_mat src1 st = Ok (a, st)
    /\ write_rows src1 (cv_multiply w a) st = Ok (tt, st1)
    /\ st' !! b1 = st1 !! b1.
Proof.
  intros Hrun Hw HM HN Hd Hb Ha2 Hshape.
  destruct r as [[d1 d2] resp].
  apply phaseCorr_inv in Hrun
    as (Hpre & padded1 & padded2 & C & s1 & s2 & Hpad & Hs & Hpk).
  rewrite HM, HN in Hpad.
  rewrite (phaseCorr_pad_multiplies_in_place _ _ _ Hw) in Hpad.
  apply bind_inv in Hpad as (p1 & sa0 & Hm1 & Hpad).
  apply bind_inv in Hpad as (p2 & sb & Hm2 & [= <- <- <-]).
  unfold apply2 in Hm1.
  apply bind_inv in Hm1 as (w & t1 & Hrw & Hm1).
  pose proof (read_mat_store _ _ _ _ Hrw) as ->.
  apply bind_inv in Hm1 as (a & t2 & Hra & Hm1).
  pose proof (read_mat_store _ _ _ _ Hra) as ->.
  destruct (read_mat_shape _ _ _ _ Hra) as (Sr & Sc & St).
  destruct (Hshape w a Hrw Hra) as (Pr & Pc & Pt).
  assert (mat_empty src1 = false) as He1.
  { destruct Hpre as (_ & _ & _ & Hwin). destruct (Hwin Hw) as (_ & Hr & Hc).
    unfold mat_empty in *. rewrite Hd. destruct (m_data window); [|discriminate].
    now rewrite <- Hr, <- Hc. }
  rewrite output_to_in_place in Hm1 by congruence.
  apply bind_inv in Hm1 as ([] & sa & Hwr & [= <- <-]).
  assert (is_Some (sa !! b1)) as Hba by (eapply grows_write_rows; eauto).
  pose proof (keeps_apply2 b1 _ _ _ _ Ha2 _ _ _ Hba Hm2) as E2.
  assert (is_Some (sb !! b1)) as Hbb by now rewrite E2.
  destruct (phaseCorr_surface_frame b1 _ _ _ _ _ Hbb Hs) as [E3 HaC].
  assert (is_Some (s2 !! b1)) as Hb2 by now rewrite E3.
  pose proof (phaseCorr_peaks_keeps b1 _ _ _ _ _ HaC _ _ _ Hb2 Hpk) as E4.
  exists w, a, sa. repeat split; try assumption. congruence.
Qed.


(** With a window, on patches whose size is already the optimal one,
    [phaseCorr] returns with [src1] holding the product of the window and
    the patch (for a [multiply] whose result has the size and type of the
    patch and fills its rows, rows of [src1] that do not overlap, and a
    [src2] in another buffer). *)
Lemma phaseCorr_leaves_product_in_src1 src1 src2 window (response : option D)
    st r st' b1 off1 :
  phaseCorr src1 src2 window response st = Ok (r, st') ->
  mat_empty window = false ->
  getOptimalDFTSize (m_rows src1) = m_rows src1 ->
  getOptimalDFTSize (m_cols src1) = m_cols src1 ->
  m_data src1 = Some (b1, off1) -> is_Some (st !! b1) -> avoids b1 src2 ->
  0 <= m_cols src1 * elemSize (m_type src1) <= m_step src1 ->
  (forall w a,
      read_mat window st = Ok (w, st) -> read_mat src1 st = Ok (a, st) ->
      (d_rows (cv_multiply w a) = d_rows a
       /\ d_cols (cv_multiply w a) = d_cols a
       /\ d_type (cv_multiply w a) = d_type a)
      /\ dense_wf (cv_multiply w a)) ->
  exists w a,
    read_mat window st = Ok (w, st)
    /\ read_mat src1 st = Ok (a, st)
    /\ value_of (read_mat src1 st') = Some (cv_multiply w a).
Proof.
  intros Hrun Hw HM HN Hd Hb Ha2 Hstep Hlib.
  destruct (phaseCorr_writes_src1 _ _ _ _ _ _ _ _ _ Hrun Hw HM HN Hd Hb Ha2)
    as (w & a & st1 & Hrw & Hra & Hwr & Hsame).
  { intros w a Hrw Hra. exact (proj1 (Hlib w a Hrw Hra)). }
  exists w, a. split; [exact Hrw|]. split; [exact Hra|].
  destruct (Hlib w a Hrw Hra) as [(Pr & Pc & Pt) Hwf].
  destruct (read_mat_shape _ _ _ _ Hra) as (Sr & Sc & St).
  rewrite (read_mat_same_buffer _ _ _ _ _ Hd Hsame).
  erewrite (write_rows_read_mat src1 (cv_multiply w a) b1 off1 Hd); eauto.
  repeat split; congruence.
Qed.

End PhaseCorrFrame.
(** The general result applies to the example: the call with the window
    holding 0.5 returns with [patch1] holding the product. *)
Lemma phaseCorr_example_holds_product :
  exists r st' w a,
    phaseCorr (CV := Ref.lib) Examples.patch1 Examples.patch2 Examples.window1
      None Examples.patches = Ok (r, st')
    /\ read_mat Examples.window1 Examples.patches = Ok (w, Examples.patches)
    /\ read_mat Examples.patch1 Examples.patches = Ok (a, Examples.patches)
    /\ value_of (read_mat Examples.patch1 st')
       = Some (cv_multiply (CvLib := Ref.lib) w a).
Proof.
  destruct (phaseCorr (CV := Ref.lib) Examples.patch1 Examples.patch2
              Examples.window1 None Examples.patches) as [[r st']| | |] eqn:E;
    try (vm_compute in E; discriminate).
  exists r, st'.
  destruct (phaseCorr_leaves_product_in_src1 (CV := Ref.lib)
              Examples.patch1 Examples.patch2 Examples.window1 None
              Examples.patches r st' 1%positive 0 E) as (w & a & Hw & Ha & Hv).
  - reflexivity.
  - vm_compute; reflexivity.
  - vm_compute; reflexivity.
  - reflexivity.
  - vm_compute; eauto.
  - intros b' off Hd. cbn in Hd. injection Hd as <- _. discriminate.
  - vm_compute; split; discriminate.
  - intros w a Hw Ha. vm_compute in Hw, Ha.
    injection Hw as <-. injection Ha as <-.
    vm_compute. repeat split.
  - exists w, a. repeat split; assumption.
Qed.

(** C5 fails on the code.  [calcSAD] leaves every buffer as it was; so does
    [phaseCorr] on the example patches without a window.  With a window, on
    patches whose size is already the optimal one, [phaseCorr] multiplies in
    place and returns with [src1] holding the product of the window and the
    patch; with the window holding 0.5 the call returns with the buffers of
    [src1] and [src2] holding 1.0 and 1.5 where they held 2.0 and 3.0. *)
Theorem phaseCorr_window_overwrites_patches :
  (forall (F : Type) (FO : FloatOps F) BLOCK_SIZE prevBlock rowpos colpos curr (dx dy : F),
      preserves_store (calcSAD BLOCK_SIZE prevBlock rowpos colpos curr dx dy))
  /\ (forall (F D : Type) (CV : CvLib F D) src1 src2 window,
        mat_empty window = false ->
        phaseCorr_pad src1 src2 window (m_rows src1) (m_cols src1)
        = (padded1 ← apply2 cv_multiply window src1 src1;
           padded2 ← apply2 cv_multiply window src2 src2;
           mret (padded1, padded2)))
  /\ (forall (F D : Type) (FO : FloatOps F) (DO : DoubleOps F D) (CV : CvLib F D)
             src1 src2 window (response : option D) st r st' b1 off1,
        phaseCorr src1 src2 window response st = Ok (r, st') ->
        mat_empty window = false ->
        getOptimalDFTSize (m_rows src1) = m_rows src1 ->
        getOptimalDFTSize (m_cols src1) = m_cols src1 ->
        m_data src1 = Some (b1, off1) -> is_Some (st !! b1) -> avoids b1 src2 ->
        0 <= m_cols src1 * elemSize (m_type src1) <= m_step src1 ->
        (forall w a,
            read_mat window st = Ok (w, st) -> read_mat src1 st = Ok (a, st) ->
            (d_rows (cv_multiply w a) = d_rows a
             /\ d_cols (cv_multiply w a) = d_cols a
             /\ d_type (cv_multiply w a) = d_type a)
            /\ dense_wf (cv_multiply w a)) ->
        exists w a,
          read_mat window st = Ok (w, st)
          /\ read_mat src1 st = Ok (a, st)
          /\ value_of (read_mat src1 st') = Some (cv_multiply w a))
  /\ (Examples.patches !! 1%positive = Some (Ref.float_bytes 2)
      /\ Examples.patches !! 2%positive = Some (Ref.float_bytes 3))
  /\ (buffer_after (phaseCorr (CV := Ref.lib) Examples.patch1 Examples.patch2 Mat_default
                      None Examples.patches) 1%positive = Some (Ref.float_bytes 2)
      /\ buffer_after (phaseCorr (CV := Ref.lib) Examples.patch1 Examples.patch2
                         Mat_default None Examples.patches) 2%positive
         = Some (Ref.float_bytes 3))
  /\ (Ref.optimal_size (m_rows Examples.patch1) = m_rows Examples.patch1
      /\ Ref.optimal_size (m_cols Examples.patch1) = m_cols Examples.patch1
      /\ mat_empty Examples.window1 = false)
  /\ (buffer_after (phaseCorr (CV := Ref.lib) Examples.patch1 Examples.patch2
                      Examples.window1 None Examples.patches) 1%positive
      = Some (Ref.float_bytes 1)
      /\ buffer_after (phaseCorr (CV := Ref.lib) Examples.patch1 Examples.patch2
                         Examples.window1 None Examples.patches) 2%positive
         = Some (le_bytes 4 (IEEE.to_bits 23 8 (Ref.f32_ratio 3 2)))).
Proof.
  split; [intros; apply calcSAD_preserves_store|].
  split; [intros; now apply phaseCorr_pad_multiplies_in_place|].
  split; [intros; eapply phaseCorr_leaves_product_in_src1; eassumption|].
  repeat split; vm_compute; reflexivity.
Qed.

(** ** at<float> and the element type *)

(** On a CV_32FC1 matrix [at<float>(i, j)] addresses element [(i, j)]. *)
Lemma at_float_addr_32FC1 m i j :
  m_type m = CV_32FC1 ->
  at_addr m sizeof_float i j = at_addr m (elemSize (m_type m)) i j
  /\ elemSize (m_type m) = sizeof_float.
Proof. intros ->. now rewrite elemSize_32FC1. Qed.

(** On a CV_64FC1 matrix it addresses four of the eight bytes of an
    element, and those of element [(i, j)] only in column 0. *)
Lemma at_float_addr_64FC1 m i j :
  m_type m = CV_64FC1 -> is_Some (m_data m) ->
  (at_addr m sizeof_float i j = at_addr m (elemSize (m_type m)) i j <-> j = 0)
  /\ elemSize (m_type m) = 2 * sizeof_float.
Proof.
  intros -> [[b off] Hd]. rewrite elemSize_64FC1. split; [|reflexivity].
  unfold at_addr, sizeof_float. rewrite Hd. cbn. split.
  - intros [= H]. lia.
  - intros ->. reflexivity.
Qed.

(** C10: the assertions of [calcSAD] and [phaseCorr] pass for CV_32FC1 and
    for CV_64FC1 inputs; [at<float>], through which [calcSAD] reads every
    pixel and [phaseCorr] clears the first peak, addresses the element for
    CV_32FC1 data, and for CV_64FC1 data half an element, the right one only
    in column 0.  So on the CV_64FC1 block holding 1.0 and frame holding 3.0
    [calcSAD] returns 0.0 where the elementwise cost is 2.0, and clearing
    the peak 3.0 of the CV_64FC1 surface holding 1.0 and 3.0 clears the
    other element and leaves the peak where it was. *)
Theorem at_float_is_elementwise_for_32F_only :
  (forall (F : Type) (FO : FloatOps F) BLOCK_SIZE prevBlock rowpos colpos curr
          (dx dy : F) st,
      m_type prevBlock = m_type curr ->
      m_type prevBlock = CV_32FC1 \/ m_type prevBlock = CV_64FC1 ->
      calcSAD BLOCK_SIZE prevBlock rowpos colpos curr dx dy st <> AssertFailed)
  /\ (forall (F D : Type) (FO : FloatOps F) (DO : DoubleOps F D) (CV : CvLib F D)
             src1 src2 (response : option D) st,
        m_type src1 = m_type src2 ->
        m_type src1 = CV_32FC1 \/ m_type src1 = CV_64FC1 ->
        m_rows src1 = m_rows src2 -> m_cols src1 = m_cols src2 ->
        phaseCorr src1 src2 Mat_default response st <> AssertFailed)
  /\ (forall m i j,
        m_type m = CV_32FC1 ->
        at_addr m sizeof_float i j = at_addr m (elemSize (m_type m)) i j
        /\ elemSize (m_type m) = sizeof_float)
  /\ (forall (F : Type) (FO : FloatOps F) BLOCK_SIZE st prevBlock rowpos colpos curr
             (dx dy : F),
        m_type prevBlock = CV_32FC1 -> m_type curr = CV_32FC1 ->
        mat_valid st prevBlock -> mat_valid st curr ->
        exists cost,
          sad_spec BLOCK_SIZE st prevBlock rowpos colpos curr dx dy = Some cost
          /\ calcSAD BLOCK_SIZE prevBlock rowpos colpos curr dx dy st = Ok (cost, st))
  /\ (forall m i j,
        m_type m = CV_64FC1 -> is_Some (m_data m) ->
        (at_addr m sizeof_float i j = at_addr m (elemSize (m_type m)) i j <-> j = 0)
        /\ elemSize (m_type m) = 2 * sizeof_float)
  /\ (sad_spec 16 Examples.double_store Examples.dblock 0 0 Examples.dframe
               (IEEE.f32_of_Z 0) (IEEE.f32_of_Z 0) = Some (IEEE.f32_of_Z 2)
      /\ calcSAD 16 Examples.dblock 0 0 Examples.dframe
                 (IEEE.f32_of_Z 0) (IEEE.f32_of_Z 0) Examples.double_store
         = Ok (S754_zero false, Examples.double_store))
  /\ (Ref.max_loc (mkDense 1 2 CV_64FC1 (Ref.double_bytes 1 ++ Ref.double_bytes 3))
      = mkLoc 1 0
      /\ buffer_after (set_at_float_zero Examples.dsurface (mkLoc 1 0)
                         Examples.dsurface_store) 1%positive
         = Some (Ref.double_bytes 0 ++ Ref.double_bytes 3)
      /\ Ref.max_loc (mkDense 1 2 CV_64FC1 (Ref.double_bytes 0 ++ Ref.double_bytes 3))
         = mkLoc 1 0)
  /\ (Ref.max_loc Examples.surface_contents = mkLoc 0 0
      /\ buffer_after (set_at_float_zero Examples.surface (mkLoc 0 0)
                         Examples.surface_store) 1%positive
         = Some (Ref.float_bytes 0 ++ Ref.float_bytes 1)).
Proof.
  split; [intros; now apply calcSAD_admits_both_types|].
  split.
  { intros F D FO DO CV src1 src2 response st Ht Hf Hr Hc Hrun.
    apply phaseCorr_asserts_iff in Hrun. apply Hrun.
    repeat split; try assumption; discriminate. }
  split; [intros; now apply at_float_addr_32FC1|].
  split.
  { intros F FO BLOCK_SIZE st prevBlock rowpos colpos curr dx dy Hp Hc Hvp Hvc.
    destruct (calcSAD_sum BLOCK_SIZE st prevBlock rowpos colpos curr dx dy Hp Hc Hvp Hvc)
      as [Hterms Hrun].
    eexists. split; [|exact Hrun]. unfold sad_spec. now rewrite Hterms. }
  split; [intros; now apply at_float_addr_64FC1|].
  repeat split; vm_compute; reflexivity.
Qed.

(** ** writeToFile *)

(** C8: on a stream in a failed state [writeToFile] ends the process
    through [exit(-1)], after its message on standard output and with
    nothing written to the sink; otherwise it returns having appended to
    the sink exactly one line, which holds the count of milliseconds. *)
Theorem writeToFile_exits_or_appends_one_line (file : ofstream) (duration_count : Z)
    (cout : string) :
  (s_fail file = true ->
   writeToFile file duration_count cout
   = Exited (-1) (mkWorld file (cout ++ "Could not open the file" ++ newline)%string))
  /\ (s_fail file = false ->
      exists line,
        writeToFile file duration_count cout
        = Returned (mkWorld (mkStream false (s_sink file ++ line)%string) cout)
        /\ line = ("Interpolated frame in :" ++ decimal duration_count
                   ++ " milliseconds " ++ newline)%string
        /\ is_line line).
Proof.
  unfold writeToFile. split; intros Hf; rewrite Hf; [reflexivity|].
  eexists. split; [|split; [reflexivity|apply report_is_line]].
  unfold insert_text. cbn [s_fail s_sink]. rewrite Hf.
  now rewrite !string_app_assoc.
Qed.
